(** * The MPD client of the ipod repository (package [mpd]), in Rocq

    A shallow embedding of the line protocol client: the greeting check of
    [NewClient], the reply framing of [sendCommand], the decoders
    [parseKVP], [List] and [Status], and the reconnecting loop
    [WatchStatus], followed by the properties its specification states.

    Go strings are byte sequences: they are modelled as [string], whose
    characters are bytes.  Go's [int] is the 64 bit integer, modelled as
    [Z] with the bounds written out where the library clamps.  [float64]
    is the kernel's binary64 [float]. *)

From Stdlib Require Import ZArith String Ascii.
From Stdlib Require Import Floats.PrimFloat Floats.FloatOps Floats.SpecFloat.
From stdpp Require Import gmap strings list.

Local Open Scope string_scope.
Local Open Scope list_scope.
Local Open Scope Z_scope.

(** ** Package [strings] *)

Module GoStrings.

(** [strings.HasPrefix(s, prefix)]. *)
Fixpoint HasPrefix (s prefix : string) {struct prefix} : bool :=
  match prefix with
  | EmptyString => true
  | String p prefix' =>
      match s with
      | EmptyString => false
      | String c s' => if Ascii.eqb c p then HasPrefix s' prefix' else false
      end
  end.

(** The slices [s[:n]] and [s[n:]], for [n] within bounds. *)
Fixpoint take_bytes (n : nat) (s : string) : string :=
  match n, s with
  | S n', String c s' => String c (take_bytes n' s')
  | _, _ => EmptyString
  end.

Fixpoint drop_bytes (n : nat) (s : string) : string :=
  match n, s with
  | S n', String _ s' => drop_bytes n' s'
  | _, _ => s
  end.

(** [strings.Index(s, sep)]: the byte offset of the first occurrence of
    [sep] in [s]; Go's [-1] is [None]. *)
Fixpoint Index (s sep : string) : option nat :=
  if HasPrefix s sep then Some 0%nat
  else match s with
       | EmptyString => None
       | String _ s' => option_map S (Index s' sep)
       end.

(** [strings.SplitN(s, sep, 2)] for a non-empty separator: the loop of
    [genSplit] runs at most once, cutting at the first occurrence. *)
Definition SplitN_2 (s sep : string) : list string :=
  match Index s sep with
  | Some m => [take_bytes m s; drop_bytes (m + String.length sep) s]
  | None => [s]
  end.

(** The ASCII path of [strings.ToLower]: the letters [A]-[Z] are mapped
    to [a]-[z], every other byte is kept. *)
Definition lower_byte (c : ascii) : ascii :=
  let n := nat_of_ascii c in
  if (65 <=? n)%nat && (n <=? 90)%nat then ascii_of_nat (n + 32) else c.

Fixpoint lower_ascii (s : string) : string :=
  match s with
  | EmptyString => EmptyString
  | String c s' => String (lower_byte c) (lower_ascii s')
  end.

Definition is_ascii_byte (c : ascii) : bool := (nat_of_ascii c <? 128)%nat.

Fixpoint is_ascii (s : string) : bool :=
  match s with
  | EmptyString => true
  | String c s' => is_ascii_byte c && is_ascii s'
  end.

(** [strings.ToLower]: a string of ASCII bytes only is lowered byte by
    byte; any other goes through [strings.Map(unicode.ToLower, s)],
    which maps each rune by the Unicode tables, may change the number
    of bytes and replaces every invalid byte.  The tables are not among
    the sources: [lower_runes] stands for that call and is taken as
    given. *)
Definition ToLower (lower_runes : string -> string) (s : string) : string :=
  if is_ascii s then lower_ascii s else lower_runes s.

(** The UTF-8 encodings of the runes for which [unicode.IsSpace] holds:
    the six ASCII ones, U+0085, U+00A0, U+1680, U+2000..U+200A, U+2028,
    U+2029, U+202F, U+205F and U+3000. *)
Definition bytes (l : list nat) : string :=
  string_of_list_ascii (map ascii_of_nat l).

Definition space_runes : list string :=
  map bytes
    [ [9]; [10]; [11]; [12]; [13]; [32]; [194; 133]; [194; 160];
      [225; 154; 128];
      [226; 128; 128]; [226; 128; 129]; [226; 128; 130]; [226; 128; 131];
      [226; 128; 132]; [226; 128; 133]; [226; 128; 134]; [226; 128; 135];
      [226; 128; 136]; [226; 128; 137]; [226; 128; 138];
      [226; 128; 168]; [226; 128; 169]; [226; 128; 175];
      [226; 129; 159]; [227; 128; 128] ]%nat.

Definition rev_string (s : string) : string :=
  string_of_list_ascii (rev (list_ascii_of_string s)).

(** The length of the space rune [s] starts with, if any. *)
Definition leading_space (runes : list string) (s : string) : option nat :=
  String.length <$> find (fun r => HasPrefix s r) runes.

Fixpoint trim_left (runes : list string) (fuel : nat) (s : string) : string :=
  match fuel with
  | O => s
  | S fuel' =>
      match leading_space runes s with
      | Some n => trim_left runes fuel' (drop_bytes n s)
      | None => s
      end
  end.

(** [strings.TrimSpace]: all leading and trailing white space removed.
    Trailing runes are found as leading reversed encodings of the
    reversed string. *)
Definition TrimSpace (s : string) : string :=
  let s1 := trim_left space_runes (String.length s) s in
  rev_string
    (trim_left (map rev_string space_runes) (String.length s1) (rev_string s1)).

End GoStrings.

(** ** Package [strconv] *)

Module GoStrconv.

Inductive NumError := ErrSyntax | ErrRange.

Definition maxUint64 : Z := 2 ^ 64 - 1.
Definition maxInt : Z := 2 ^ 63 - 1.
Definition minInt : Z := - 2 ^ 63.

Definition digit (c : ascii) : option Z :=
  let n := Z.of_nat (nat_of_ascii c) in
  if (48 <=? n) && (n <=? 57) then Some (n - 48) else None.

(** The digit loop of [ParseUint(s, 10, 64)]: a byte that is no digit
    is a syntax error with value 0, an overflow a range error with the
    largest value; the bytes are examined in order. *)
Fixpoint ParseUint_loop (s : string) (n : Z) : Z * option NumError :=
  match s with
  | EmptyString => (n, None)
  | String c s' =>
      match digit c with
      | None => (0, Some ErrSyntax)
      | Some d =>
          if n >=? maxUint64 / 10 + 1 then (maxUint64, Some ErrRange)
          else
            let n1 := n * 10 + d in
            if n1 >? maxUint64 then (maxUint64, Some ErrRange)
            else ParseUint_loop s' n1
      end
  end.

Definition ParseUint (s : string) : Z * option NumError :=
  match s with
  | EmptyString => (0, Some ErrSyntax)
  | _ => ParseUint_loop s 0
  end.

(** [ParseInt(s, 10, 0)] with 64 bit [int]. *)
Definition ParseInt (s : string) : Z * option NumError :=
  match s with
  | EmptyString => (0, Some ErrSyntax)
  | String c0 s' =>
      let neg := Ascii.eqb c0 "-" in
      let s1 := if Ascii.eqb c0 "+" || neg then s' else s in
      match ParseUint s1 with
      | (_, Some ErrSyntax) => (0, Some ErrSyntax)
      | (un, _) =>
          let cutoff := 2 ^ 63 in
          if negb neg && (un >=? cutoff) then (cutoff - 1, Some ErrRange)
          else if neg && (un >? cutoff) then (- cutoff, Some ErrRange)
          else (if neg then - un else un, None)
      end
  end.

(** [strconv.Atoi]: its fast path for short inputs computes what
    [ParseInt] computes, so the slow path stands for both. *)
Definition Atoi (s : string) : Z * option NumError := ParseInt s.

(** The conversion [int(f)] of a [float64]: truncation toward zero.
    Where the value does not fit (or is no number) Go leaves the result
    to the implementation; the amd64 one yields the smallest [int]. *)
Definition int_of_float64 (f : float) : Z :=
  match Prim2SF f with
  | S754_zero _ => 0
  | S754_finite sgn m e =>
      let a := if e >=? 0 then Z.pos m * 2 ^ e else Z.pos m / 2 ^ (- e) in
      let v := if sgn then - a else a in
      if (minInt <=? v) && (v <=? maxInt) then v else minInt
  | _ => minInt
  end.

End GoStrconv.

Import GoStrings GoStrconv.

(** ** Package [mpd]: connections and errors *)

(** An error of the operating system or of the peer, with its text;
    [io.EOF] is the one a read reports at the end of the stream. *)
Inductive io_error := IOError (text : string).

Definition EOF : io_error := IOError "EOF".

(** The errors the package builds with [fmt.Errorf], one constructor per
    format string, the arguments kept as given. *)
Inductive error :=
| ErrDial (addr : string) (cause : io_error)
| ErrWelcomeRead (cause : io_error)
| ErrWelcomeUnexpected (line : string)
| ErrSend (command : string) (cause : io_error)
| ErrRead (command : string) (cause : io_error)
| ErrAck (command line : string).

Definition io_text (e : io_error) : string := let 'IOError t := e in t.

(** The text [err.Error()] of each. *)
Definition error_string (e : error) : string :=
  match e with
  | ErrDial addr cause =>
      "could not connect to MPD at " +:+ addr +:+ ": " +:+ io_text cause
  | ErrWelcomeRead cause =>
      "failed to read MPD welcome message: " +:+ io_text cause
  | ErrWelcomeUnexpected line => "unexpected MPD welcome message: " +:+ line
  | ErrSend command cause =>
      "failed to send command '" +:+ command +:+ "': " +:+ io_text cause
  | ErrRead command cause =>
      "failed to read response for '" +:+ command +:+ "': " +:+ io_text cause
  | ErrAck command line =>
      "mpd command '" +:+ command +:+ "' failed: " +:+ line
  end.

(** A Go result pair [(v, err)] of which exactly one side is set. *)
Inductive result (A : Type) := Ok (a : A) | Err (e : error).
Arguments Ok {A} a.
Arguments Err {A} e.

(** The socket of a client: the writes made on it so far, how many
    further writes the peer accepts before the stream breaks, and the
    error a write reports from then on. *)
Record Conn := {
  conn_id : nat;
  sent : list string;
  writable : nat;
  write_error : io_error
}.

(** [Client]: the socket and the buffered reader on it.  The reader is
    the bytes the peer delivers from here on, up to the point where
    reading fails.  That point is modelled as the peer closing the
    stream, so a read past the bytes reports [io.EOF]; a connection
    that fails in another way reports its own error at that point, and
    the code wraps it in the same way.  A client is only built by
    [NewClient], with a socket. *)
Record Client := {
  conn : Conn;
  reader : string
}.

(** The line feed. *)
Definition lf : string := bytes [10%nat].

(** [fmt.Fprintln(c.conn, command)]. *)
Definition Fprintln (cn : Conn) (command : string) : Conn * option io_error :=
  match writable cn with
  | O => (cn, Some (write_error cn))
  | S n =>
      ({| conn_id := conn_id cn; sent := sent cn ++ [command +:+ lf];
          writable := n; write_error := write_error cn |}, None)
  end.

(** [reader.ReadString('\n')]: the bytes up to and including the first
    line feed and the rest of the stream; when the stream ends before a
    line feed, what was read and the error, [io.EOF] for a stream the
    peer has closed. *)
Fixpoint ReadString (buf : string) : string * string * option io_error :=
  match buf with
  | EmptyString => (EmptyString, EmptyString, Some EOF)
  | String c rest =>
      if Ascii.eqb c (ascii_of_nat 10) then (String c EmptyString, rest, None)
      else
        let '(line, rest', e) := ReadString rest in
        (String c line, rest', e)
  end.

(** ** The command transport *)

(** The read loop of [sendCommand].  Every turn that goes on has read at
    least one byte, so [S (length rd)] turns are enough
    ([sendCommand_loop_fuel]); [None] is a loop cut short. *)
Fixpoint sendCommand_loop (fuel : nat) (command rd : string)
    (response : list string) : option (string * result (list string)) :=
  match fuel with
  | O => None
  | S fuel' =>
      let '(line, rd', err) := ReadString rd in
      match err with
      | Some e => Some (rd', Err (ErrRead command e))
      | None =>
          let line := TrimSpace line in
          if String.eqb line "OK" then Some (rd', Ok response)
          else if HasPrefix line "ACK" then Some (rd', Err (ErrAck command line))
          else sendCommand_loop fuel' command rd' (response ++ [line])
      end
  end.

(** [sendCommand]: one command line out, the reply lines in. *)
Definition sendCommand (c : Client) (command : string)
    : Client * result (list string) :=
  match Fprintln (conn c) command with
  | (cn, Some e) => ({| conn := cn; reader := reader c |}, Err (ErrSend command e))
  | (cn, None) =>
      match sendCommand_loop (S (String.length (reader c))) command (reader c) [] with
      | Some (rd, r) => ({| conn := cn; reader := rd |}, r)
      | None => ({| conn := cn; reader := EmptyString |}, Err (ErrRead command EOF))
      end
  end.

(** ** The decoders *)

(** [parseKVP]. *)
Definition parseKVP_step (m : gmap string string) (line : string)
    : gmap string string :=
  match SplitN_2 line ": " with
  | [k; v] => <[k := v]> m
  | _ => m
  end.

Definition parseKVP (lines : list string) : gmap string string :=
  fold_left parseKVP_step lines ∅.

(** A Go call either returns or panics. *)
Inductive outcome (A : Type) := Returns (a : A) | Panics.
Arguments Returns {A} a.
Arguments Panics {A}.

Definition dquote : string := bytes [34%nat].

(** The command building loop of [List], by index as written:
    [args[i]] and [args[i+1]] are read for [i = 0, 2, ...] below
    [len(args)], and an index out of range panics.  [None] is a loop cut
    short ([List_command_loop_fuel]). *)
Fixpoint List_command_loop (fuel : nat) (args : list string) (i : nat)
    (cmd : string) : option (outcome string) :=
  if decide (i < length args)%nat then
    match fuel with
    | O => None
    | S fuel' =>
        match args !! i, args !! (i + 1)%nat with
        | Some a, Some b =>
            List_command_loop fuel' args (i + 2)
              (cmd +:+ " " +:+ a +:+ " " +:+ dquote +:+ b +:+ dquote)
        | _, _ => Some Panics
        end
    end
  else Some (Returns cmd).

Definition List_command (tag : string) (args : list string) : outcome string :=
  match List_command_loop (length args) args 0 ("list " +:+ tag) with
  | Some r => r
  | None => Panics
  end.

(** The slice [s[n:]]: it panics when [n] is beyond the length of [s]. *)
Definition slice_from (n : nat) (s : string) : outcome string :=
  if (n <=? String.length s)%nat then Returns (drop_bytes n s) else Panics.

(** The filter of [List] over the reply lines: a line whose lowered text
    starts with the prefix gives the slice of the line as received, from
    the length of the prefix on. *)
Fixpoint List_values_loop (lower_runes : string -> string) (prefix : string)
    (lines : list string) (values : list string) : outcome (list string) :=
  match lines with
  | [] => Returns values
  | line :: lines' =>
      if HasPrefix (ToLower lower_runes line) prefix
      then match slice_from (String.length prefix) line with
           | Returns v => List_values_loop lower_runes prefix lines' (values ++ [v])
           | Panics => Panics
           end
      else List_values_loop lower_runes prefix lines' values
  end.

Definition List_values (lower_runes : string -> string) (tag : string)
    (lines : list string) : outcome (list string) :=
  let prefix := tag +:+ ": " in
  List_values_loop lower_runes prefix lines [].

(** [List]. *)
Definition List (lower_runes : string -> string) (c : Client) (tag : string)
    (args : list string) : outcome (Client * result (list string)) :=
  match List_command tag args with
  | Panics => Panics
  | Returns cmd =>
      match sendCommand c cmd with
      | (c', Err e) => Returns (c', Err e)
      | (c', Ok lines) =>
          match List_values lower_runes tag lines with
          | Returns values => Returns (c', Ok values)
          | Panics => Panics
          end
      end
  end.

(** ** The status record *)

Record Status := {
  State : string;
  Volume : Z;
  Repeat : bool;
  Random : bool;
  Single : bool;
  Consume : bool;
  PlaylistLength : Z;
  Song : Z;
  SongID : Z;
  NextSong : Z;
  NextSongID : Z;
  Duration : Z;
  Elapsed : float;
  Bitrate : Z;
  Error : string;
  Artist : string;
  Album : string;
  Title : string
}.

(** The assignments [s.F = v], one per field. *)
Definition set_State (v : string) (s : Status) : Status :=
  {| State := v; Volume := Volume s; Repeat := Repeat s; Random := Random s;
     Single := Single s; Consume := Consume s;
     PlaylistLength := PlaylistLength s; Song := Song s; SongID := SongID s;
     NextSong := NextSong s; NextSongID := NextSongID s;
     Duration := Duration s; Elapsed := Elapsed s; Bitrate := Bitrate s;
     Error := Error s; Artist := Artist s; Album := Album s;
     Title := Title s |}.

Definition set_Volume (v : Z) (s : Status) : Status :=
  {| State := State s; Volume := v; Repeat := Repeat s; Random := Random s;
     Single := Single s; Consume := Consume s;
     PlaylistLength := PlaylistLength s; Song := Song s; SongID := SongID s;
     NextSong := NextSong s; NextSongID := NextSongID s;
     Duration := Duration s; Elapsed := Elapsed s; Bitrate := Bitrate s;
     Error := Error s; Artist := Artist s; Album := Album s;
     Title := Title s |}.

Definition set_Repeat (v : bool) (s : Status) : Status :=
  {| State := State s; Volume := Volume s; Repeat := v; Random := Random s;
     Single := Single s; Consume := Consume s;
     PlaylistLength := PlaylistLength s; Song := Song s; SongID := SongID s;
     NextSong := NextSong s; NextSongID := NextSongID s;
     Duration := Duration s; Elapsed := Elapsed s; Bitrate := Bitrate s;
     Error := Error s; Artist := Artist s; Album := Album s;
     Title := Title s |}.

Definition set_Random (v : bool) (s : Status) : Status :=
  {| State := State s; Volume := Volume s; Repeat := Repeat s; Random := v;
     Single := Single s; Consume := Consume s;
     PlaylistLength := PlaylistLength s; Song := Song s; SongID := SongID s;
     NextSong := NextSong s; NextSongID := NextSongID s;
     Duration := Duration s; Elapsed := Elapsed s; Bitrate := Bitrate s;
     Error := Error s; Artist := Artist s; Album := Album s;
     Title := Title s |}.

Definition set_Single (v : bool) (s : Status) : Status :=
  {| State := State s; Volume := Volume s; Repeat := Repeat s;
     Random := Random s; Single := v; Consume := Consume s;
     PlaylistLength := PlaylistLength s; Song := Song s; SongID := SongID s;
     NextSong := NextSong s; NextSongID := NextSongID s;
     Duration := Duration s; Elapsed := Elapsed s; Bitrate := Bitrate s;
     Error := Error s; Artist := Artist s; Album := Album s;
     Title := Title s |}.

Definition set_Consume (v : bool) (s : Status) : Status :=
  {| State := State s; Volume := Volume s; Repeat := Repeat s;
     Random := Random s; Single := Single s; Consume := v;
     PlaylistLength := PlaylistLength s; Song := Song s; SongID := SongID s;
     NextSong := NextSong s; NextSongID := NextSongID s;
     Duration := Duration s; Elapsed := Elapsed s; Bitrate := Bitrate s;
     Error := Error s; Artist := Artist s; Album := Album s;
     Title := Title s |}.

Definition set_PlaylistLength (v : Z) (s : Status) : Status :=
  {| State := State s; Volume := Volume s; Repeat := Repeat s;
     Random := Random s; Single := Single s; Consume := Consume s;
     PlaylistLength := v; Song := Song s; SongID := SongID s;
     NextSong := NextSong s; NextSongID := NextSongID s;
     Duration := Duration s; Elapsed := Elapsed s; Bitrate := Bitrate s;
     Error := Error s; Artist := Artist s; Album := Album s;
     Title := Title s |}.

Definition set_Song (v : Z) (s : Status) : Status :=
  {| State := State s; Volume := Volume s; Repeat := Repeat s;
     Random := Random s; Single := Single s; Consume := Consume s;
     PlaylistLength := PlaylistLength s; Song := v; SongID := SongID s;
     NextSong := NextSong s; NextSongID := NextSongID s;
     Duration := Duration s; Elapsed := Elapsed s; Bitrate := Bitrate s;
     Error := Error s; Artist := Artist s; Album := Album s;
     Title := Title s |}.

Definition set_SongID (v : Z) (s : Status) : Status :=
  {| State := State s; Volume := Volume s; Repeat := Repeat s;
     Random := Random s; Single := Single s; Consume := Consume s;
     PlaylistLength := PlaylistLength s; Song := Song s; SongID := v;
     NextSong := NextSong s; NextSongID := NextSongID s;
     Duration := Duration s; Elapsed := Elapsed s; Bitrate := Bitrate s;
     Error := Error s; Artist := Artist s; Album := Album s;
     Title := Title s |}.

Definition set_NextSong (v : Z) (s : Status) : Status :=
  {| State := State s; Volume := Volume s; Repeat := Repeat s;
     Random := Random s; Single := Single s; Consume := Consume s;
     PlaylistLength := PlaylistLength s; Song := Song s; SongID := SongID s;
     NextSong := v; NextSongID := NextSongID s; Duration := Duration s;
     Elapsed := Elapsed s; Bitrate := Bitrate s; Error := Error s;
     Artist := Artist s; Album := Album s; Title := Title s |}.

Definition set_NextSongID (v : Z) (s : Status) : Status :=
  {| State := State s; Volume := Volume s; Repeat := Repeat s;
     Random := Random s; Single := Single s; Consume := Consume s;
     PlaylistLength := PlaylistLength s; Song := Song s; SongID := SongID s;
     NextSong := NextSong s; NextSongID := v; Duration := Duration s;
     Elapsed := Elapsed s; Bitrate := Bitrate s; Error := Error s;
     Artist := Artist s; Album := Album s; Title := Title s |}.

Definition set_Duration (v : Z) (s : Status) : Status :=
  {| State := State s; Volume := Volume s; Repeat := Repeat s;
     Random := Random s; Single := Single s; Consume := Consume s;
     PlaylistLength := PlaylistLength s; Song := Song s; SongID := SongID s;
     NextSong := NextSong s; NextSongID := NextSongID s; Duration := v;
     Elapsed := Elapsed s; Bitrate := Bitrate s; Error := Error s;
     Artist := Artist s; Album := Album s; Title := Title s |}.

Definition set_Elapsed (v : float) (s : Status) : Status :=
  {| State := State s; Volume := Volume s; Repeat := Repeat s;
     Random := Random s; Single := Single s; Consume := Consume s;
     PlaylistLength := PlaylistLength s; Song := Song s; SongID := SongID s;
     NextSong := NextSong s; NextSongID := NextSongID s;
     Duration := Duration s; Elapsed := v; Bitrate := Bitrate s;
     Error := Error s; Artist := Artist s; Album := Album s;
     Title := Title s |}.

Definition set_Bitrate (v : Z) (s : Status) : Status :=
  {| State := State s; Volume := Volume s; Repeat := Repeat s;
     Random := Random s; Single := Single s; Consume := Consume s;
     PlaylistLength := PlaylistLength s; Song := Song s; SongID := SongID s;
     NextSong := NextSong s; NextSongID := NextSongID s;
     Duration := Duration s; Elapsed := Elapsed s; Bitrate := v;
     Error := Error s; Artist := Artist s; Album := Album s;
     Title := Title s |}.

Definition set_Error (v : string) (s : Status) : Status :=
  {| State := State s; Volume := Volume s; Repeat := Repeat s;
     Random := Random s; Single := Single s; Consume := Consume s;
     PlaylistLength := PlaylistLength s; Song := Song s; SongID := SongID s;
     NextSong := NextSong s; NextSongID := NextSongID s;
     Duration := Duration s; Elapsed := Elapsed s; Bitrate := Bitrate s;
     Error := v; Artist := Artist s; Album := Album s; Title := Title s |}.

Definition set_Artist (v : string) (s : Status) : Status :=
  {| State := State s; Volume := Volume s; Repeat := Repeat s;
     Random := Random s; Single := Single s; Consume := Consume s;
     PlaylistLength := PlaylistLength s; Song := Song s; SongID := SongID s;
     NextSong := NextSong s; NextSongID := NextSongID s;
     Duration := Duration s; Elapsed := Elapsed s; Bitrate := Bitrate s;
     Error := Error s; Artist := v; Album := Album s; Title := Title s |}.

Definition set_Album (v : string) (s : Status) : Status :=
  {| State := State s; Volume := Volume s; Repeat := Repeat s;
     Random := Random s; Single := Single s; Consume := Consume s;
     PlaylistLength := PlaylistLength s; Song := Song s; SongID := SongID s;
     NextSong := NextSong s; NextSongID := NextSongID s;
     Duration := Duration s; Elapsed := Elapsed s; Bitrate := Bitrate s;
     Error := Error s; Artist := Artist s; Album := v; Title := Title s |}.

Definition set_Title (v : string) (s : Status) : Status :=
  {| State := State s; Volume := Volume s; Repeat := Repeat s;
     Random := Random s; Single := Single s; Consume := Consume s;
     PlaylistLength := PlaylistLength s; Song := Song s; SongID := SongID s;
     NextSong := NextSong s; NextSongID := NextSongID s;
     Duration := Duration s; Elapsed := Elapsed s; Bitrate := Bitrate s;
     Error := Error s; Artist := Artist s; Album := Album s; Title := v |}.

(** The literal [&Status{Volume: -1, SongID: -1, NextSongID: -1}]: the
    fields it leaves out hold Go's zero values. *)
Definition Status_defaults : Status :=
  {| State := ""; Volume := -1; Repeat := false; Random := false;
     Single := false; Consume := false; PlaylistLength := 0; Song := 0;
     SongID := -1; NextSong := 0; NextSongID := -1; Duration := 0;
     Elapsed := 0%float; Bitrate := 0; Error := ""; Artist := "";
     Album := ""; Title := "" |}.

(** [if v, ok := kv[key]; ok { s = f v s }]. *)
Definition if_key (kv : gmap string string) (key : string)
    (f : string -> Status -> Status) (s : Status) : Status :=
  match kv !! key with
  | Some v => f v s
  | None => s
  end.

(** The log lines of the package, one constructor per format string. *)
Inductive LogMsg :=
| LogConnectFailed (addr : string) (e : error) (interval : Z)
| LogConnected (addr : string)
| LogStatusFailed (e : error)
| LogCurrentSongFailed (e : error).

Section Decode.

(** [strconv.ParseFloat(s, 64)] is taken as given: a value and, when the
    text is no number or is out of range, the error. *)
Variable ParseFloat : string -> float * option NumError.

(** The decoding part of [Status]: the defaults, then one guarded
    assignment per key, in the order of the source.  An error of [Atoi]
    or [ParseFloat] is dropped and the value returned with it stored. *)
Definition decodeStatus (kv : gmap string string) : Status :=
  let s := Status_defaults in
  let s := if_key kv "state" (fun state => set_State state) s in
  let s := if_key kv "volume" (fun volumeStr => set_Volume (fst (Atoi volumeStr))) s in
  let s := if_key kv "repeat" (fun repeatStr => set_Repeat (String.eqb repeatStr "1")) s in
  let s := if_key kv "random" (fun randomStr => set_Random (String.eqb randomStr "1")) s in
  let s := if_key kv "single" (fun singleStr => set_Single (String.eqb singleStr "1")) s in
  let s := if_key kv "consume" (fun consumeStr => set_Consume (String.eqb consumeStr "1")) s in
  let s := if_key kv "playlistlength"
             (fun playlistLengthStr => set_PlaylistLength (fst (Atoi playlistLengthStr))) s in
  let s := if_key kv "song" (fun songStr => set_Song (fst (Atoi songStr))) s in
  let s := if_key kv "songid" (fun songIDStr => set_SongID (fst (Atoi songIDStr))) s in
  let s := if_key kv "nextsong" (fun nextSongStr => set_NextSong (fst (Atoi nextSongStr))) s in
  let s := if_key kv "nextsongid"
             (fun nextSongIDStr => set_NextSongID (fst (Atoi nextSongIDStr))) s in
  let s := if_key kv "duration"
             (fun durationStr =>
                let durationFloat := fst (ParseFloat durationStr) in
                set_Duration (int_of_float64 durationFloat)) s in
  let s := if_key kv "elapsed" (fun elapsedStr => set_Elapsed (fst (ParseFloat elapsedStr))) s in
  let s := if_key kv "bitrate" (fun bitrateStr => set_Bitrate (fst (Atoi bitrateStr))) s in
  let s := if_key kv "error" (fun errorStr => set_Error errorStr) s in
  s.

(** A Go map read [m[key]]: the zero value for a missing key. *)
Definition map_get (m : gmap string string) (key : string) : string :=
  default "" (m !! key).

(** [Status]: the status query, its decoding and, while a song plays or
    is paused, the metadata query.  The result comes with the client
    after the exchange and the lines logged. *)
Definition Client_Status (c : Client) : Client * list LogMsg * result Status :=
  match sendCommand c "status" with
  | (c1, Err e) => (c1, [], Err e)
  | (c1, Ok lines) =>
      let kv := parseKVP lines in
      let s := decodeStatus kv in
      if String.eqb (State s) "play" || String.eqb (State s) "pause" then
        match sendCommand c1 "currentsong" with
        | (c2, Err e) => (c2, [LogCurrentSongFailed e], Ok s)
        | (c2, Ok currentSongLines) =>
            let songKV := parseKVP currentSongLines in
            let s := set_Artist (map_get songKV "Artist") s in
            let s := set_Album (map_get songKV "Album") s in
            let s := set_Title (map_get songKV "Title") s in
            (c2, [], Ok s)
        end
      else (c1, [], Ok s)
  end.

End Decode.

(** ** The network and the watcher *)

(** What a [net.Dial] meets: a refusal, or a peer that will deliver
    [stream] and accept [accepts] writes. *)
Inductive DialResult :=
| DialFails (e : io_error)
| DialOpens (stream : string) (accepts : nat) (broken : io_error).

(** The effects of the package on its surroundings, in program order. *)
Inductive Event :=
| EvDial (addr : string)
| EvClose (id : nat)
| EvLog (m : LogMsg)
| EvSleep (d : Z)
| EvNewTicker (d : Z)
| EvTick
| EvTickerStop
| EvPublish (s : Status).

(** The surroundings: the outcome of the n-th dial, the number of dials
    made, the effects so far, and the package variable [CurrentStatus]
    ([None] is the nil pointer it starts as).  [statusMutex] only orders
    the accesses of other goroutines and is not modelled. *)
Record World := {
  network : nat -> DialResult;
  dials : nat;
  trace : list Event;
  CurrentStatus : option Status
}.

Definition emit (evs : list Event) (w : World) : World :=
  {| network := network w; dials := dials w; trace := trace w ++ evs;
     CurrentStatus := CurrentStatus w |}.

Definition set_CurrentStatus (s : Status) (w : World) : World :=
  {| network := network w; dials := dials w; trace := trace w;
     CurrentStatus := Some s |}.

(** [net.Dial("tcp", addr)]: the connection carries the number of the
    dial that opened it. *)
Definition Dial (w : World) (addr : string) : World * (io_error + Client) :=
  let id := dials w in
  let w' := {| network := network w; dials := S id;
               trace := trace w ++ [EvDial addr];
               CurrentStatus := CurrentStatus w |} in
  match network w id with
  | DialFails e => (w', inl e)
  | DialOpens stream accepts broken =>
      (w', inr {| conn := {| conn_id := id; sent := []; writable := accepts;
                             write_error := broken |};
                  reader := stream |})
  end.

(** [Close]. *)
Definition Close (w : World) (c : Client) : World :=
  emit [EvClose (conn_id (conn c))] w.

(** [NewClient]. *)
Definition NewClient (w : World) (addr : string) : World * result Client :=
  match Dial w addr with
  | (w, inl e) => (w, Err (ErrDial addr e))
  | (w, inr c) =>
      let '(line, rd, err) := ReadString (reader c) in
      match err with
      | Some e => (Close w c, Err (ErrWelcomeRead e))
      | None =>
          if negb (HasPrefix line "OK MPD")
          then (Close w c, Err (ErrWelcomeUnexpected line))
          else (w, Ok {| conn := conn c; reader := rd |})
      end
  end.

(** Where [WatchStatus] stands: at the head of its outer loop, about to
    connect, or at the head of its ticker loop, holding a client. *)
Inductive Watcher :=
| Connecting
| Polling (client : Client).

Section Watch.

Variable ParseFloat : string -> float * option NumError.
Variable addr : string.
Variable interval : Z.

(** One turn of [WatchStatus]: from [Connecting], the connection attempt
    with its log line and, when it fails, the sleep; from [Polling], the
    wait for the tick, the status query and either the publication or
    the log line, the close and the end of the ticker. *)
Definition WatchStatus_step (st : Watcher * World) : Watcher * World :=
  let '(pc, w) := st in
  match pc with
  | Connecting =>
      match NewClient w addr with
      | (w, Err err) =>
          (Connecting, emit [EvLog (LogConnectFailed addr err interval); EvSleep interval] w)
      | (w, Ok client) =>
          (Polling client, emit [EvLog (LogConnected addr); EvNewTicker interval] w)
      end
  | Polling client =>
      let w := emit [EvTick] w in
      match Client_Status ParseFloat client with
      | (client, logged, Err err) =>
          let w := emit (map EvLog logged ++ [EvLog (LogStatusFailed err)]) w in
          let w := Close w client in
          (Connecting, emit [EvTickerStop] w)
      | (client, logged, Ok status) =>
          let w := emit (map EvLog logged) w in
          (Polling client, emit [EvPublish status] (set_CurrentStatus status w))
      end
  end.

(** The first [n] turns. *)
Fixpoint WatchStatus_run (n : nat) (st : Watcher * World) : Watcher * World :=
  match n with
  | O => st
  | S n' => WatchStatus_run n' (WatchStatus_step st)
  end.

End Watch.

(** A server that accepts every write and delivers [stream]. *)
Definition serving (stream : string) : Client :=
  {| conn := {| conn_id := 0; sent := []; writable := 1000;
                write_error := IOError "broken pipe" |};
     reader := stream |}.

(** The start of the process: nothing dialled, nothing published. *)
Definition boot (net : nat -> DialResult) : Watcher * World :=
  (Connecting, {| network := net; dials := 0; trace := []; CurrentStatus := None |}).

(** ** Formatting integers: [strconv.Itoa] and the verb [%d] *)

Module GoFormat.

(** The byte of the digit [d]. *)
Definition digit_char (d : Z) : ascii := ascii_of_nat (Z.to_nat (48 + d)).

(** The digit loop of [formatBits] in base 10: the digits of [u] are
    put in front of [acc], the last one first.  A 64 bit value has at
    most 20 digits, so 20 turns are enough ([formatBits_loop_fuel]). *)
Fixpoint formatBits_loop (fuel : nat) (u : Z) (acc : string) : string :=
  match fuel with
  | O => acc
  | S fuel' =>
      if u <? 10 then String (digit_char u) acc
      else formatBits_loop fuel' (u / 10) (String (digit_char (u mod 10)) acc)
  end.

Definition FormatUint (u : Z) : string := formatBits_loop 20 u EmptyString.

(** [strconv.Itoa(i)], which is [FormatInt(int64(i), 10)]: the digits of
    the magnitude, after a minus sign for a negative number.  [%d]
    prints an [int] the same way. *)
Definition Itoa (i : Z) : string :=
  if i <? 0 then String "-" (FormatUint (- i)) else FormatUint i.

(** The conversion of an [int32] sum back into [int32]: wrap-around. *)
Definition wrap_int32 (n : Z) : Z := (n + 2 ^ 31) mod 2 ^ 32 - 2 ^ 31.

End GoFormat.

Import GoFormat.

(** ** Package [mpd]: the transport controls *)

(** The [error] a method hands back from a result of [sendCommand]:
    [nil] is [None]. *)
Definition error_of {A : Type} (r : result A) : option error :=
  match r with
  | Ok _ => None
  | Err e => Some e
  end.

(** [Play]. *)
Definition Play (c : Client) (song : Z) : Client * option error :=
  let cmd := "play" in
  let cmd := if song >=? 0 then "play " +:+ Itoa song else cmd in
  let '(c', r) := sendCommand c cmd in
  (c', error_of r).

(** [PlayID]. *)
Definition PlayID (c : Client) (songID : Z) : Client * option error :=
  let cmd := "playid" in
  let cmd := if songID >=? 0 then "playid " +:+ Itoa songID else cmd in
  let '(c', r) := sendCommand c cmd in
  (c', error_of r).

(** [Pause]. *)
Definition Pause (c : Client) (p : bool) : Client * option error :=
  let pauseState := if p then 1 else 0 in
  let cmd := "pause " +:+ Itoa pauseState in
  let '(c', r) := sendCommand c cmd in
  (c', error_of r).

(** [Random]; the field of [Status] has the name. *)
Definition Random_ (c : Client) (r : bool) : Client * option error :=
  let randomState := if r then 1 else 0 in
  let cmd := "random " +:+ Itoa randomState in
  let '(c', res) := sendCommand c cmd in
  (c', error_of res).

(** [Repeat]; the field of [Status] has the name. *)
Definition Repeat_ (c : Client) (r : bool) : Client * option error :=
  let repeatState := if r then 1 else 0 in
  let cmd := "repeat " +:+ Itoa repeatState in
  let '(c', res) := sendCommand c cmd in
  (c', error_of res).

(** [Single]; the field of [Status] has the name. *)
Definition Single_ (c : Client) (s : bool) : Client * option error :=
  let singleState := if s then 1 else 0 in
  let cmd := "single " +:+ Itoa singleState in
  let '(c', res) := sendCommand c cmd in
  (c', error_of res).

(** [Next]. *)
Definition Next (c : Client) : Client * option error :=
  let '(c', r) := sendCommand c "next" in
  (c', error_of r).

(** [Previous]. *)
Definition Previous (c : Client) : Client * option error :=
  let '(c', r) := sendCommand c "previous" in
  (c', error_of r).

(** ** Package [simpleremote]: the button handler *)

(** The payloads of a command: the button status with its mask, and
    every other one. *)
Inductive Payload :=
| ContextButtonStatus (State : Z)
| OtherPayload.

(** The log lines of the handler. *)
Inductive RemoteLog :=
| LogReceived (State : Z)
| LogPanic (text : string).

(** The state the handler works on: the surroundings it shares with the
    watcher, the package variable [mpdClient] ([None] is nil), and its
    log.  The client is a pointer in the source: what a method does to
    it shows in [mpdClient].  [mpdMutex] only orders the calls of other
    goroutines and is not modelled. *)
Record Remote := {
  world : World;
  mpdClient : option Client;
  remote_log : list RemoteLog
}.

(** [getMpdClient]. *)
Definition getMpdClient (r : Remote) : Remote * result Client :=
  match mpdClient r with
  | None =>
      match NewClient (world r) "127.0.0.1:6600" with
      | (w, Err err) =>
          ({| world := w; mpdClient := None; remote_log := remote_log r |}, Err err)
      | (w, Ok client) =>
          ({| world := w; mpdClient := Some client; remote_log := remote_log r |},
           Ok client)
      end
  | Some client => (r, Ok client)
  end.

Section SimpleRemote.

(** The masks [ContextButtonMask(ContextButtonPlayPause)],
    [ContextButtonMask(ContextButtonNextTrack)] and
    [ContextButtonMask(ContextButtonPreviousTrack)]: their declarations
    are not among the sources, so they are taken as given. *)
Variable maskPlayPause maskNextTrack maskPreviousTrack : Z.

(** [HandleSimpleRemote]: the state after the call and, unless it
    panics, the error returned.  [log.Panic] logs and panics; reading
    [State] through the nil [CurrentStatus] panics; the error of the
    command sent is dropped. *)
Definition HandleSimpleRemote (r : Remote) (payload : Payload)
    : Remote * outcome (option error) :=
  match payload with
  | ContextButtonStatus st =>
      let r := {| world := world r; mpdClient := mpdClient r;
                  remote_log := remote_log r ++ [LogReceived st] |} in
      match getMpdClient r with
      | (r, Err err) =>
          ({| world := world r; mpdClient := mpdClient r;
              remote_log := remote_log r ++ [LogPanic "could not get mpd client"] |},
           Panics)
      | (r, Ok client) =>
          let stored c' := {| world := world r; mpdClient := Some c';
                              remote_log := remote_log r |} in
          if negb (Z.land st maskPlayPause =? 0) then
            match CurrentStatus (world r) with
            | None => (r, Panics)
            | Some status =>
                let '(c', _) := Pause client (String.eqb (State status) "play") in
                (stored c', Returns None)
            end
          else if negb (Z.land st maskNextTrack =? 0) then
            let '(c', _) := Next client in (stored c', Returns None)
          else if negb (Z.land st maskPreviousTrack =? 0) then
            let '(c', _) := Previous client in (stored c', Returns None)
          else (r, Returns None)
      end
  | OtherPayload => (r, Returns None)
  end.

End SimpleRemote.

(** ** Package [ws]: commands to the websocket front end *)

Module WS.

(** What [CommandWS] does to its surroundings, in program order. *)
Inductive WSEvent :=
| WSDial (url : string)
| WSFatal (e : io_error)
| WSWrite (message : string)
| WSClose.

(** How a call ends: it returns, or [log.Fatal] ends the process. *)
Inductive ending := Returned | Exited.

(** [CommandWS], for the outcome [dial] of the dial ([None]: a
    connection): one text message, whose write error is dropped, and the
    deferred close. *)
Definition CommandWS (Url : string) (dial : option io_error) (comm : string)
    : list WSEvent * ending :=
  match dial with
  | Some err => ([WSDial Url; WSFatal err], Exited)
  | None => ([WSDial Url; WSWrite comm; WSClose], Returned)
  end.

(** [strings.Join] of two elements. *)
Definition Join2 (a b sep : string) : string := a +:+ sep +:+ b.

(** [NextSong] and [PrevSong]. *)
Definition NextSong (Url : string) (dial : option io_error) : list WSEvent * ending :=
  CommandWS Url dial "MPD_API_SET_NEXT".

Definition PrevSong (Url : string) (dial : option io_error) : list WSEvent * ending :=
  CommandWS Url dial "MPD_API_SET_PREV".

(** [SetPlayingTrack]: [c] is an [int32], and so is [c + 1]. *)
Definition SetPlayingTrack (Url : string) (dial : option io_error) (c : Z)
    : list WSEvent * ending :=
  let a := "MPD_API_PLAY_TRACK" in
  let b := wrap_int32 (c + 1) in
  let d := Join2 a (Itoa b) "," in
  CommandWS Url dial d.

End WS.

(** ** The vocabulary of the properties *)

(** [k] and [v] are the two sides of the first occurrence of [sep] in
    [l]: no occurrence starts earlier. *)
Definition cut_at_first (sep l k v : string) : Prop :=
  l = k +:+ sep +:+ v /\
  forall k' v', l = k' +:+ sep +:+ v' -> (String.length k <= String.length k')%nat.

(** The line at [i] gives [k] the value [v], and no later line gives
    [k] a value. *)
Definition last_entry (lines : list string) (k v : string) : Prop :=
  exists i l, lines !! i = Some l /\ cut_at_first ": " l k v /\
    forall j l' v', (i < j)%nat -> lines !! j = Some l' ->
                    ~ cut_at_first ": " l' k v'.

(** No line feed inside [s]. *)
Fixpoint no_newline (s : string) : bool :=
  match s with
  | EmptyString => true
  | String c s' => negb (Ascii.eqb c (ascii_of_nat 10)) && no_newline s'
  end.

(** The bytes of the lines [ls] on the wire, each ended by a line feed. *)
Fixpoint frame (ls : list string) : string :=
  match ls with
  | [] => EmptyString
  | l :: ls' => l +:+ lf +:+ frame ls'
  end.

(** What [sendCommand] keeps of the wire line [l]. *)
Definition trimmed (l : string) : string := TrimSpace (l +:+ lf).

(** A line of the reply body: it neither ends the reply nor fails it. *)
Definition body_line (l : string) : bool :=
  no_newline l && negb (String.eqb (trimmed l) "OK")
  && negb (HasPrefix (trimmed l) "ACK").

(** The closing line of a reply, and what [sendCommand] answers to it. *)
Definition closing_line (last : string) : bool :=
  no_newline last
  && (String.eqb (trimmed last) "OK" || HasPrefix (trimmed last) "ACK").

Definition reply_result (command : string) (pre : list string) (last : string)
    : result (list string) :=
  if String.eqb (trimmed last) "OK" then Ok (map trimmed pre)
  else Err (ErrAck command (trimmed last)).

(** The socket after one more write. *)
Definition after_write (cn : Conn) (command : string) : Conn :=
  {| conn_id := conn_id cn; sent := sent cn ++ [command +:+ lf];
     writable := pred (writable cn); write_error := write_error cn |}.

(** What the loop of [List] keeps of a line of ASCII bytes: when its
    lowered text starts with [tag + ": "], what follows the first
    [len(prefix)] bytes of the line as received. *)
Definition List_value (tag line : string) : option string :=
  if HasPrefix (lower_ascii line) (tag +:+ ": ")
  then Some (drop_bytes (String.length (tag +:+ ": ")) line)
  else None.

(** The fields [decodeStatus] fills, each with its key. *)
Inductive Field :=
| FState | FVolume | FRepeat | FRandom | FSingle | FConsume
| FPlaylistLength | FSong | FSongID | FNextSong | FNextSongID
| FDuration | FElapsed | FBitrate | FError.

Definition field_key (f : Field) : string :=
  match f with
  | FState => "state" | FVolume => "volume" | FRepeat => "repeat"
  | FRandom => "random" | FSingle => "single" | FConsume => "consume"
  | FPlaylistLength => "playlistlength" | FSong => "song"
  | FSongID => "songid" | FNextSong => "nextsong"
  | FNextSongID => "nextsongid" | FDuration => "duration"
  | FElapsed => "elapsed" | FBitrate => "bitrate" | FError => "error"
  end.

(** The field holds the default the record documents. *)
Definition at_default (f : Field) (s : Status) : Prop :=
  match f with
  | FState => State s = ""
  | FVolume => Volume s = -1
  | FRepeat => Repeat s = false
  | FRandom => Random s = false
  | FSingle => Single s = false
  | FConsume => Consume s = false
  | FPlaylistLength => PlaylistLength s = 0
  | FSong => Song s = 0
  | FSongID => SongID s = -1
  | FNextSong => NextSong s = 0
  | FNextSongID => NextSongID s = -1
  | FDuration => Duration s = 0
  | FElapsed => Elapsed s = 0%float
  | FBitrate => Bitrate s = 0
  | FError => Error s = ""
  end.

(** The numeric fields, each with its key. *)
Inductive NumField :=
| NVolume | NPlaylistLength | NSong | NSongID | NNextSong | NNextSongID
| NDuration | NElapsed | NBitrate.

Definition num_key (n : NumField) : string :=
  match n with
  | NVolume => "volume" | NPlaylistLength => "playlistlength"
  | NSong => "song" | NSongID => "songid" | NNextSong => "nextsong"
  | NNextSongID => "nextsongid" | NDuration => "duration"
  | NElapsed => "elapsed" | NBitrate => "bitrate"
  end.

(** The parser of the field rejects [v] as no number. *)
Definition not_a_number (ParseFloat : string -> float * option NumError)
    (n : NumField) (v : string) : Prop :=
  match n with
  | NDuration | NElapsed => snd (ParseFloat v) = Some ErrSyntax
  | _ => snd (Atoi v) = Some ErrSyntax
  end.

(** The assignment of 0 to the field. *)
Definition set_zero (n : NumField) : Status -> Status :=
  match n with
  | NVolume => set_Volume 0
  | NPlaylistLength => set_PlaylistLength 0
  | NSong => set_Song 0
  | NSongID => set_SongID 0
  | NNextSong => set_NextSong 0
  | NNextSongID => set_NextSongID 0
  | NDuration => set_Duration 0
  | NElapsed => set_Elapsed 0%float
  | NBitrate => set_Bitrate 0
  end.

(** A stand-in for [ParseFloat] in the closed examples: it knows three
    numerals, whose values binary64 holds exactly, and rejects every
    other text as no number, with the 0 that [ParseFloat] returns then. *)
Definition sample_ParseFloat (s : string) : float * option NumError :=
  if String.eqb s "245.5" then (245.5%float, None)
  else if String.eqb s "12.25" then (12.25%float, None)
  else if String.eqb s "0" then (0%float, None)
  else (0%float, Some ErrSyntax).

(** The surroundings after the dial alone. *)
Definition dialled (w : World) (addr : string) : World :=
  {| network := network w; dials := S (dials w);
     trace := trace w ++ [EvDial addr]; CurrentStatus := CurrentStatus w |}.

(** The metadata the second reply gives a status. *)
Definition with_song (songKV : gmap string string) (s : Status) : Status :=
  set_Title (map_get songKV "Title")
    (set_Album (map_get songKV "Album")
       (set_Artist (map_get songKV "Artist") s)).

(** The status last published in a trace, [o] if there is none. *)
Fixpoint last_published (tr : list Event) (o : option Status) : option Status :=
  match tr with
  | [] => o
  | EvPublish s :: tr' => last_published tr' (Some s)
  | _ :: tr' => last_published tr' o
  end.

(** The scenario of the specification. The server answers two polls and
    the stream ends during the third; every later dial is refused. *)
Definition two_polls (k : nat) : DialResult :=
  match k with
  | O => DialOpens ("OK MPD 0.23.5" +:+ lf
                    +:+ "volume: 10" +:+ lf +:+ "state: stop" +:+ lf +:+ "OK" +:+ lf
                    +:+ "volume: 20" +:+ lf +:+ "state: stop" +:+ lf +:+ "OK" +:+ lf)
           100 (IOError "broken pipe")
  | S _ => DialFails (IOError "connection refused")
  end.





(** A server that greets and then goes away; every later dial is
    refused. *)
Definition greets_and_leaves (k : nat) : DialResult :=
  match k with
  | O => DialOpens ("OK MPD 0.23.5" +:+ lf) 100 (IOError "broken pipe")
  | S _ => DialFails (IOError "connection refused")
  end.


(** Every byte of [s] is a decimal digit. *)
Fixpoint all_digits (s : string) : bool :=
  match s with
  | EmptyString => true
  | String c s' => match digit c with Some _ => all_digits s' | None => false end
  end.

(** The calls of the transport controls, the method each one is, and
    the command line it is to send. *)
Inductive Call :=
| CPlay (song : Z) | CPlayID (songID : Z)
| CPause (p : bool) | CRandom (r : bool) | CRepeat (r : bool) | CSingle (s : bool)
| CNext | CPrevious.

Definition invoke (m : Call) (c : Client) : Client * option error :=
  match m with
  | CPlay song => Play c song
  | CPlayID songID => PlayID c songID
  | CPause p => Pause c p
  | CRandom r => Random_ c r
  | CRepeat r => Repeat_ c r
  | CSingle s => Single_ c s
  | CNext => Next c
  | CPrevious => Previous c
  end.

Definition verb (m : Call) : string :=
  match m with
  | CPlay _ => "play" | CPlayID _ => "playid" | CPause _ => "pause"
  | CRandom _ => "random" | CRepeat _ => "repeat" | CSingle _ => "single"
  | CNext => "next" | CPrevious => "previous"
  end.

(** The number a call puts after its verb, if any. *)
Definition argument (m : Call) : option Z :=
  match m with
  | CPlay n | CPlayID n => if n <? 0 then None else Some n
  | CPause b | CRandom b | CRepeat b | CSingle b => Some (if b then 1 else 0)
  | CNext | CPrevious => None
  end.

(** The streams behind each answer of the read loop. *)
Definition stream_of (command rd rd' : string) (response : list string)
    (r : result (list string)) : Prop :=
  match r with
  | Ok lines =>
      exists pre last,
        rd = frame pre +:+ last +:+ lf +:+ rd'
        /\ forallb body_line pre = true /\ no_newline last = true
        /\ trimmed last = "OK" /\ lines = response ++ map trimmed pre
  | Err (ErrAck k line) =>
      k = command
      /\ exists pre last,
           rd = frame pre +:+ last +:+ lf +:+ rd'
           /\ forallb body_line pre = true /\ no_newline last = true
           /\ HasPrefix (trimmed last) "ACK" = true /\ line = trimmed last
  | Err (ErrRead k e) =>
      k = command
      /\ exists pre partial,
           rd = frame pre +:+ partial
           /\ forallb body_line pre = true /\ no_newline partial = true
  | Err _ => False
  end.

(** A value of Go's [int]. *)
Definition is_int (n : Z) : Prop := minInt <= n <= maxInt.

(** The fields [decodeStatus] reads with [Atoi], each with its key. *)
Inductive IntField :=
| IVolume | IPlaylistLength | ISong | ISongID | INextSong | INextSongID
| IBitrate.

Definition int_key (f : IntField) : string :=
  match f with
  | IVolume => "volume" | IPlaylistLength => "playlistlength"
  | ISong => "song" | ISongID => "songid" | INextSong => "nextsong"
  | INextSongID => "nextsongid" | IBitrate => "bitrate"
  end.

Definition int_field (f : IntField) : Status -> Z :=
  match f with
  | IVolume => Volume | IPlaylistLength => PlaylistLength
  | ISong => Song | ISongID => SongID | INextSong => NextSong
  | INextSongID => NextSongID | IBitrate => Bitrate
  end.

(** The connections closed in a trace, in order. *)
Fixpoint closes (tr : list Event) : list nat :=
  match tr with
  | [] => []
  | EvClose k :: tr' => k :: closes tr'
  | _ :: tr' => closes tr'
  end.

(** The [k]-th dial meets a peer. *)
Definition opens (net : nat -> DialResult) (k : nat) : Prop :=
  exists stream accepts broken, net k = DialOpens stream accepts broken.

(** The watcher polls on connection [k]. *)
Definition polled (pc : Watcher) (k : nat) : Prop :=
  match pc with
  | Connecting => False
  | Polling c => conn_id (conn c) = k
  end.

(** Every connection opened is closed or polled on, only opened ones
    are closed, none twice, and never the one polled on. *)
Definition tidy (net : nat -> DialResult) (st : Watcher * World) : Prop :=
  network (snd st) = net
  /\ (forall k, (k < dials (snd st))%nat -> opens net k ->
        In k (closes (trace (snd st))) \/ polled (fst st) k)
  /\ (forall k, In k (closes (trace (snd st))) ->
        (k < dials (snd st))%nat /\ opens net k /\ ~ polled (fst st) k)
  /\ NoDup (closes (trace (snd st)))
  /\ (forall k, polled (fst st) k -> (k < dials (snd st))%nat /\ opens net k).

(** A handler state with a client on a stream that answers [OK], and
    [play] published; the masks 1, 2 and 4 stand for the three bits. *)
Definition remote_playing : Remote :=
  {| world := {| network := greets_and_leaves; dials := 1; trace := [];
                 CurrentStatus := Some (set_State "play" Status_defaults) |};
     mpdClient := Some (serving ("OK" +:+ lf));
     remote_log := [] |}.

(** The line a button status makes the handler send, if any: the first
    of play/pause, next and previous whose bit is set decides. *)
Definition button_line (maskPlayPause maskNextTrack maskPreviousTrack : Z)
    (st : Z) (status : Status) : option string :=
  if negb (Z.land st maskPlayPause =? 0)
  then Some (if String.eqb (State status) "play" then "pause 1" else "pause 0")
  else if negb (Z.land st maskNextTrack =? 0) then Some "next"
  else if negb (Z.land st maskPreviousTrack =? 0) then Some "previous"
  else None.

(** * Properties *)

(** ** Sample runs of the embedded functions *)

Example TrimSpace_line : TrimSpace (" volume: 50 " +:+ bytes [13; 10]%nat) = "volume: 50".
Proof. vm_compute. reflexivity. Qed.

Example Atoi_examples :
  Atoi "50" = (50, None) /\ Atoi "-1" = (-1, None) /\ Atoi "abc" = (0, Some ErrSyntax)
  /\ Atoi "" = (0, Some ErrSyntax) /\ Atoi "+" = (0, Some ErrSyntax)
  /\ Atoi "9223372036854775807" = (maxInt, None)
  /\ Atoi "9223372036854775808" = (maxInt, Some ErrRange)
  /\ Atoi "-9223372036854775808" = (minInt, None)
  /\ Atoi "99999999999999999999999" = (maxInt, Some ErrRange).
Proof. vm_compute. repeat split; reflexivity. Qed.

Example int_of_float64_examples :
  int_of_float64 (3.75)%float = 3 /\ int_of_float64 (-3.75)%float = -3
  /\ int_of_float64 (0)%float = 0 /\ int_of_float64 (0x1p+100)%float = minInt.
Proof. vm_compute. repeat split; reflexivity. Qed.

Example SplitN_2_examples :
  SplitN_2 "volume: 50" ": " = ["volume"; "50"]
  /\ SplitN_2 "Title: a: b" ": " = ["Title"; "a: b"]
  /\ SplitN_2 "OK" ": " = ["OK"].
Proof. vm_compute. repeat split; reflexivity. Qed.

Example sendCommand_ok :
  snd (sendCommand (serving ("volume: 50" +:+ lf +:+ "state: stop" +:+ lf +:+ "OK" +:+ lf)) "status")
  = Ok ["volume: 50"; "state: stop"].
Proof. vm_compute. reflexivity. Qed.

Example List_genre :
  forall lower_runes,
  List lower_runes
    (serving ("genre: Rock" +:+ lf +:+ "stray" +:+ lf +:+ "Genre: Jazz" +:+ lf +:+ "OK" +:+ lf))
    "genre" []
  = Returns ({| conn := {| conn_id := 0; sent := ["list genre" +:+ lf]; writable := 999;
                           write_error := IOError "broken pipe" |};
                reader := "" |}, Ok ["Rock"; "Jazz"]).
Proof. intros lower_runes. vm_compute. reflexivity. Qed.

Example List_command_examples :
  List_command "album" ["artist"; "Daft Punk"] = Returns ("list album artist " +:+ dquote +:+ "Daft Punk" +:+ dquote)
  /\ List_command "album" ["artist"] = Panics.
Proof. vm_compute. split; reflexivity. Qed.

(** ** Facts on strings *)

#[local] Arguments String.append !s1 s2 : simpl nomatch.

Lemma string_app_assoc (a b c : string) : (a +:+ b) +:+ c = a +:+ (b +:+ c).
Proof. induction a as [|x a IH]; simpl; [reflexivity | now rewrite IH]. Qed.

Lemma string_app_length (a b : string) :
  String.length (a +:+ b) = (String.length a + String.length b)%nat.
Proof. induction a as [|x a IH]; simpl; [reflexivity | now rewrite IH]. Qed.

Lemma HasPrefix_app (p t : string) : HasPrefix (p +:+ t) p = true.
Proof.
  induction p as [|x p IH]; simpl; [reflexivity|].
  now rewrite Ascii.eqb_refl.
Qed.

Lemma HasPrefix_inv (s p : string) :
  HasPrefix s p = true -> s = p +:+ drop_bytes (String.length p) s.
Proof.
  revert s; induction p as [|x p IH]; intros s H; simpl in *.
  - now destruct s.
  - destruct s as [|c s]; [discriminate|].
    destruct (Ascii.eqb_spec c x) as [->|]; [|discriminate].
    f_equal. now apply IH.
Qed.

Lemma take_bytes_app (k t : string) : take_bytes (String.length k) (k +:+ t) = k.
Proof. induction k as [|x k IH]; simpl; [now destruct t | now rewrite IH]. Qed.

Lemma drop_bytes_app (k t : string) : drop_bytes (String.length k) (k +:+ t) = t.
Proof. induction k as [|x k IH]; simpl; [now destruct t | exact IH]. Qed.

Lemma cut_at_first_unique sep l k v k' v' :
  cut_at_first sep l k v -> cut_at_first sep l k' v' -> k = k' /\ v = v'.
Proof.
  intros [E1 M1] [E2 M2].
  assert (L : String.length k = String.length k').
  { apply Nat.le_antisymm; [eapply M1 | eapply M2]; eassumption. }
  assert (K : k = k').
  { rewrite <- (take_bytes_app k (sep +:+ v)), <- E1, E2, L.
    apply take_bytes_app. }
  split; [exact K|]. subst k'.
  rewrite E1 in E2. apply String.app_inj in E2. now apply String.app_inj in E2.
Qed.

Lemma Index_Some (s sep : string) (m : nat) :
  Index s sep = Some m ->
  cut_at_first sep s (take_bytes m s) (drop_bytes (m + String.length sep) s).
Proof.
  revert m; induction s as [|c s IH]; intros m H.
  - simpl in H. destruct (HasPrefix "" sep) eqn:P; [|discriminate].
    injection H as <-. split; [|intros; simpl; lia].
    simpl. now apply HasPrefix_inv.
  - cbn [Index] in H. destruct (HasPrefix (String c s) sep) eqn:P.
    + injection H as <-. split; [|intros; simpl; lia].
      simpl take_bytes. simpl "+"%nat. now apply HasPrefix_inv.
    + destruct (Index s sep) as [m'|] eqn:I; [|discriminate].
      injection H as <-. destruct (IH m' eq_refl) as [E M].
      split.
      * simpl. now rewrite <- E.
      * intros k' v' E'. destruct k' as [|c' k'].
        { simpl in E'. rewrite E', HasPrefix_app in P. discriminate. }
        simpl in E'. injection E' as -> E'.
        simpl. apply le_n_S. exact (M k' v' E').
Qed.

Lemma Index_None (s sep : string) :
  Index s sep = None -> forall k v, s <> k +:+ sep +:+ v.
Proof.
  induction s as [|c s IH]; intros H k v E.
  - simpl in H. destruct (HasPrefix "" sep) eqn:P; [discriminate|].
    destruct k; [|discriminate]. simpl in E.
    rewrite E, HasPrefix_app in P. discriminate.
  - cbn [Index] in H. destruct (HasPrefix (String c s) sep) eqn:P; [discriminate|].
    destruct (Index s sep) eqn:I; [discriminate|].
    destruct k as [|c' k].
    + simpl in E. rewrite E, HasPrefix_app in P. discriminate.
    + simpl in E. injection E as _ E. exact (IH eq_refl k v E).
Qed.

(** ** [parseKVP] *)

Lemma SplitN_2_cut (l sep k v : string) :
  SplitN_2 l sep = [k; v] <-> cut_at_first sep l k v.
Proof.
  unfold SplitN_2. destruct (Index l sep) as [m|] eqn:I.
  - pose proof (Index_Some _ _ _ I) as C. split.
    + intros E. injection E as <- <-. exact C.
    + intros C'. destruct (cut_at_first_unique _ _ _ _ _ _ C C') as [-> ->].
      reflexivity.
  - split; [discriminate|].
    intros [E _]. now destruct (Index_None _ _ I k v).
Qed.

Lemma SplitN_2_whole (l sep : string) :
  (forall k v, l <> k +:+ sep +:+ v) -> SplitN_2 l sep = [l].
Proof.
  intros N. unfold SplitN_2. destruct (Index l sep) as [m|] eqn:I; [|reflexivity].
  destruct (Index_Some _ _ _ I) as [E _]. now destruct (N _ _ E).
Qed.

Lemma parseKVP_step_cases (m : gmap string string) (l : string) :
  (exists k v, cut_at_first ": " l k v /\ parseKVP_step m l = <[k := v]> m)
  \/ ((forall k v, ~ cut_at_first ": " l k v) /\ parseKVP_step m l = m).
Proof.
  unfold parseKVP_step, SplitN_2.
  destruct (Index l ": ") as [n|] eqn:I.
  - left. eexists _, _. split; [exact (Index_Some _ _ _ I) | reflexivity].
  - right. split; [|reflexivity].
    intros k v [E _]. exact (Index_None _ _ I k v E).
Qed.

Lemma parseKVP_snoc (lines : list string) (l : string) :
  parseKVP (lines ++ [l]) = parseKVP_step (parseKVP lines) l.
Proof. unfold parseKVP. now rewrite fold_left_app. Qed.

Lemma last_entry_snoc_here lines x k v :
  cut_at_first ": " x k v -> last_entry (lines ++ [x]) k v.
Proof.
  intros C. exists (length lines), x. split; [|split].
  - now rewrite lookup_app_r, Nat.sub_diag by lia.
  - exact C.
  - intros j l' v' Lt H. apply lookup_lt_Some in H.
    rewrite length_app in H. simpl in H. lia.
Qed.

Lemma last_entry_snoc_keep lines x k v :
  (forall v', ~ cut_at_first ": " x k v') ->
  last_entry (lines ++ [x]) k v <-> last_entry lines k v.
Proof.
  intros N. split; intros (i & l & L & C & F).
  - destruct (decide (i < length lines)%nat) as [Lt|Ge].
    + exists i, l. rewrite lookup_app_l in L by exact Lt.
      split; [exact L|]. split; [exact C|].
      intros j l' v' Lj Hj. apply (F j l' v' Lj).
      rewrite lookup_app_l; [exact Hj | now apply lookup_lt_Some in Hj].
    + rewrite lookup_app_r in L by lia.
      destruct (i - length lines)%nat; [|now destruct n].
      injection L as <-. now destruct (N v).
  - exists i, l. pose proof (lookup_lt_Some _ _ _ L) as Lt.
    split; [now rewrite lookup_app_l|]. split; [exact C|].
    intros j l' v' Lj Hj.
    destruct (decide (j < length lines)%nat) as [Lt'|Ge].
    + rewrite lookup_app_l in Hj by exact Lt'. now apply (F j l' v').
    + rewrite lookup_app_r in Hj by lia.
      destruct (j - length lines)%nat; [|now destruct n].
      injection Hj as <-. apply N.
Qed.

Lemma parseKVP_lookup_Some (lines : list string) (k v : string) :
  parseKVP lines !! k = Some v <-> last_entry lines k v.
Proof.
  revert v. induction lines as [|x lines IH] using rev_ind; intros v.
  - unfold parseKVP. simpl. rewrite lookup_empty. split; [discriminate|].
    intros (i & l & L & _). now rewrite lookup_nil in L.
  - rewrite parseKVP_snoc.
    destruct (parseKVP_step_cases (parseKVP lines) x) as [(k0 & v0 & C & ->)|[N ->]].
    + destruct (decide (k0 = k)) as [->|Ne].
      * rewrite lookup_insert_eq. split.
        { intros E. injection E as <-. now apply last_entry_snoc_here. }
        intros (i & l & L & C' & F).
        destruct (decide (i < length lines)%nat) as [Lt|Ge].
        { exfalso. apply (F (length lines) x v0 Lt); [|exact C].
          now rewrite lookup_app_r, Nat.sub_diag by lia. }
        rewrite lookup_app_r in L by lia.
        destruct (i - length lines)%nat; [|now destruct n].
        injection L as <-.
        now destruct (cut_at_first_unique _ _ _ _ _ _ C C') as [_ ->].
      * rewrite lookup_insert_ne by exact Ne. rewrite IH.
        symmetry. apply last_entry_snoc_keep.
        intros v' C'. apply Ne.
        now destruct (cut_at_first_unique _ _ _ _ _ _ C C').
    + rewrite IH. symmetry. apply last_entry_snoc_keep. intros v'. apply N.
Qed.

Lemma parseKVP_lookup_None (lines : list string) (k : string) :
  parseKVP lines !! k = None <->
  forall l v, l ∈ lines -> ~ cut_at_first ": " l k v.
Proof.
  induction lines as [|x lines IH] using rev_ind.
  - split; [|reflexivity]. intros _ l v H. now apply elem_of_nil in H.
  - rewrite parseKVP_snoc.
    destruct (parseKVP_step_cases (parseKVP lines) x) as [(k0 & v0 & C & ->)|[N ->]].
    + destruct (decide (k0 = k)) as [->|Ne].
      * rewrite lookup_insert_eq. split; [discriminate|].
        intros H. exfalso. apply (H x v0); [|exact C].
        apply elem_of_app. right. apply list_elem_of_singleton. reflexivity.
      * rewrite lookup_insert_ne by exact Ne. rewrite IH. split.
        { intros H l v In. apply elem_of_app in In as [In|In]; [now apply H|].
          apply list_elem_of_singleton in In as ->. intros C'. apply Ne.
          now destruct (cut_at_first_unique _ _ _ _ _ _ C C'). }
        intros H l v In. apply H. apply elem_of_app. now left.
    + rewrite IH. split.
      * intros H l v In. apply elem_of_app in In as [In|In]; [now apply H|].
        apply list_elem_of_singleton in In as ->. apply N.
      * intros H l v In. apply H. apply elem_of_app. now left.
Qed.

Lemma parseKVP_drop_line (pre post : list string) (l : string) :
  (forall k v, l <> k +:+ ": " +:+ v) ->
  parseKVP (pre ++ l :: post) = parseKVP (pre ++ post).
Proof.
  intros N. unfold parseKVP. rewrite !fold_left_app. cbn [fold_left]. f_equal.
  unfold parseKVP_step. now rewrite (SplitN_2_whole _ _ N).
Qed.

(** C5. [parseKVP] cuts each line at the first [": "]; the mapping holds,
    for each key, the value of the last line that has that key (a later
    line overwrites an earlier one), holds nothing for a key no line
    has, and a line without the separator changes nothing. *)
Theorem parseKVP_spec (lines : list string) (k : string) :
  (forall v, parseKVP lines !! k = Some v <->
     exists i l, lines !! i = Some l /\ cut_at_first ": " l k v /\
       forall j l' v', (i < j)%nat -> lines !! j = Some l' ->
                       ~ cut_at_first ": " l' k v')
  /\ (parseKVP lines !! k = None <->
      forall l v, l ∈ lines -> ~ cut_at_first ": " l k v)
  /\ (forall pre l post, lines = pre ++ l :: post ->
        (forall k' v', l <> k' +:+ ": " +:+ v') ->
        parseKVP lines = parseKVP (pre ++ post))
  /\ (forall l, parseKVP (lines ++ [l]) =
        match SplitN_2 l ": " with
        | [k'; v'] => <[k' := v']> (parseKVP lines)
        | _ => parseKVP lines
        end).
Proof.
  split; [|split; [|split]].
  - intros v. apply parseKVP_lookup_Some.
  - apply parseKVP_lookup_None.
  - intros pre l post -> N. now apply parseKVP_drop_line.
  - intros l. apply parseKVP_snoc.
Qed.

(** ** The command of [List] *)

Lemma List_command_loop_spec (fuel : nat) (args : list string) :
  forall (i : nat) (cmd : string),
  (length args - i <= fuel)%nat ->
  (List_command_loop fuel args i cmd = Some Panics
   /\ Nat.odd (length args - i) = true)
  \/ (exists cmd', List_command_loop fuel args i cmd = Some (Returns cmd')
      /\ Nat.odd (length args - i) = false).
Proof.
  induction fuel as [|fuel IH]; intros i cmd Hf.
  - right. exists cmd. simpl. destruct (decide (i < length args)%nat); [lia|].
    split; [reflexivity|]. now replace (length args - i)%nat with 0%nat by lia.
  - cbn [List_command_loop].
    destruct (decide (i < length args)%nat) as [Lt|Ge].
    + destruct (lookup_lt_is_Some_2 args i Lt) as [a ->].
      destruct (decide (i + 1 < length args)%nat) as [Lt'|Ge'].
      * destruct (lookup_lt_is_Some_2 args (i + 1) Lt') as [b ->].
        replace (length args - i)%nat with (S (S (length args - (i + 2)))) by lia.
        cbn [Nat.odd Nat.even negb].
        change (negb (Nat.even (length args - (i + 2))))
          with (Nat.odd (length args - (i + 2))).
        apply IH. lia.
      * rewrite (lookup_ge_None_2 args (i + 1)) by lia.
        left. split; [reflexivity|].
        now replace (length args - i)%nat with 1%nat by lia.
    + right. exists cmd. split; [reflexivity|].
      now replace (length args - i)%nat with 0%nat by lia.
Qed.

(** The loop of [List] is never cut short: it ends within [len(args)]
    turns. *)
Lemma List_command_loop_fuel (tag : string) (args : list string) :
  is_Some (List_command_loop (length args) args 0 ("list " +:+ tag)).
Proof.
  destruct (List_command_loop_spec (length args) args 0 ("list " +:+ tag))
    as [[-> _]|(c & -> & _)]; [lia | eauto | eauto].
Qed.

(** C10. The command building loop of [List] is safe exactly for an
    even number of filter arguments: with an odd number its last turn,
    at the even index [len(args) - 1], reads [args[i+1]] out of range,
    so [List] panics before anything is sent; with an even number
    every read of the loop is in range and the command is built.  After
    that [List] can panic in one place only, the slice of a reply line
    in its values loop. *)
Theorem List_panics_iff_odd (lower_runes : string -> string) (c : Client)
    (tag : string) (args : list string) :
  (List_command tag args = Panics <-> Nat.odd (length args) = true)
  /\ (Nat.odd (length args) = true -> List lower_runes c tag args = Panics)
  /\ (Nat.odd (length args) = true <->
      exists i, Nat.even i = true /\ (i < length args)%nat
                /\ is_Some (args !! i) /\ args !! (i + 1)%nat = None)
  /\ (Nat.odd (length args) = false <->
      exists cmd, List_command tag args = Returns cmd)
  /\ (List lower_runes c tag args = Panics <->
      Nat.odd (length args) = true
      \/ exists cmd c' lines,
           List_command tag args = Returns cmd
           /\ sendCommand c cmd = (c', Ok lines)
           /\ List_values lower_runes tag lines = Panics).
Proof.
  assert (A : List_command tag args = Panics <-> Nat.odd (length args) = true).
  { unfold List_command.
    destruct (List_command_loop_spec (length args) args 0 ("list " +:+ tag))
      as [[-> O]|(cmd & -> & O)]; [lia | |]; rewrite Nat.sub_0_r in O.
    - now split.
    - rewrite O. split; discriminate. }
  split; [exact A|]. split; [|split; [|split]].
  - intros O. apply A in O. unfold List. now rewrite O.
  - split.
    + intros O. exists (length args - 1)%nat.
      assert (P : (0 < length args)%nat).
      { destruct args; [discriminate | simpl; lia]. }
      split; [|split; [lia|split]].
      * replace (length args) with (S (length args - 1)) in O by lia.
        rewrite Nat.odd_succ in O. exact O.
      * apply lookup_lt_is_Some_2. lia.
      * apply lookup_ge_None_2. lia.
    + intros (i & E & Lt & _ & N). apply lookup_ge_None_1 in N.
      replace (length args) with (S i) by lia.
      now rewrite Nat.odd_succ.
  - unfold List_command.
    destruct (List_command_loop_spec (length args) args 0 ("list " +:+ tag))
      as [[-> O]|(cmd & -> & O)]; [lia | |]; rewrite Nat.sub_0_r in O; rewrite O.
    + split; [discriminate|]. intros [cmd E]. discriminate.
    + split; [eauto | reflexivity].
  - rewrite <- A. unfold List. destruct (List_command tag args) as [cmd|].
    + destruct (sendCommand c cmd) as [c' [lines|e]] eqn:S1.
      * destruct (List_values lower_runes tag lines) eqn:V.
        { split; [discriminate|].
          intros [D|(cmd0 & c0 & lines0 & E1 & E2 & E3)]; [discriminate|].
          injection E1 as <-. rewrite S1 in E2. injection E2 as <- <-.
          congruence. }
        split; [|reflexivity]. intros _. right. now exists cmd, c', lines.
      * split; [discriminate|].
        intros [D|(cmd0 & c0 & lines0 & E1 & E2 & _)]; [discriminate|].
        injection E1 as <-. rewrite S1 in E2. discriminate.
    + split; [now left | reflexivity].
Qed.

(** ** [sendCommand] *)

Lemma ReadString_line (l rest : string) :
  no_newline l = true ->
  ReadString (l +:+ lf +:+ rest) = (l +:+ lf, rest, None).
Proof.
  induction l as [|c l IH]; intros N.
  - reflexivity.
  - simpl in N. apply andb_prop in N as [N1 N2].
    change (String c l +:+ lf +:+ rest) with (String c (l +:+ lf +:+ rest)).
    cbn [ReadString]. destruct (Ascii.eqb c (ascii_of_nat 10)); [discriminate|].
    now rewrite (IH N2).
Qed.

Lemma ReadString_shrinks (rd line rd' : string) :
  ReadString rd = (line, rd', None) -> (String.length rd' < String.length rd)%nat.
Proof.
  revert line rd'. induction rd as [|c rd IH]; intros line rd' H.
  - discriminate.
  - simpl in H. destruct (Ascii.eqb c (ascii_of_nat 10)).
    + injection H as _ <-. simpl. lia.
    + destruct (ReadString rd) as [[l r] e]. injection H as _ <- ->.
      specialize (IH l r eq_refl). simpl. lia.
Qed.

Lemma sendCommand_loop_mono (fuel : nat) :
  forall fuel' command rd response r,
  sendCommand_loop fuel command rd response = Some r ->
  (fuel <= fuel')%nat ->
  sendCommand_loop fuel' command rd response = Some r.
Proof.
  induction fuel as [|fuel IH]; intros fuel' command rd response r H Le.
  - discriminate.
  - destruct fuel' as [|fuel']; [lia|].
    cbn [sendCommand_loop] in *.
    destruct (ReadString rd) as [[line rd'] [e|]]; [exact H|].
    destruct (String.eqb (TrimSpace line) "OK"); [exact H|].
    destruct (HasPrefix (TrimSpace line) "ACK"); [exact H|].
    apply (IH fuel' _ _ _ _ H). lia.
Qed.

(** The read loop of [sendCommand] ends within [S (length rd)] turns. *)
Lemma sendCommand_loop_fuel (fuel : nat) :
  forall command rd response,
  (String.length rd < fuel)%nat ->
  is_Some (sendCommand_loop fuel command rd response).
Proof.
  induction fuel as [|fuel IH]; intros command rd response Lt; [lia|].
  cbn [sendCommand_loop].
  destruct (ReadString rd) as [[line rd'] [e|]] eqn:R; [eauto|].
  destruct (String.eqb (TrimSpace line) "OK"); [eauto|].
  destruct (HasPrefix (TrimSpace line) "ACK"); [eauto|].
  apply IH. apply ReadString_shrinks in R. lia.
Qed.

Lemma sendCommand_loop_body (pre : list string) :
  forall fuel command tail response,
  forallb body_line pre = true ->
  sendCommand_loop (length pre + fuel) command (frame pre +:+ tail) response
  = sendCommand_loop fuel command tail (response ++ map trimmed pre).
Proof.
  induction pre as [|l pre IH]; intros fuel command tail response B.
  - simpl. now rewrite app_nil_r.
  - simpl in B. apply andb_prop in B as [Bl B].
    unfold body_line in Bl. apply andb_prop in Bl as [Bl A].
    apply andb_prop in Bl as [N O].
    cbn [frame length Nat.add sendCommand_loop].
    rewrite !string_app_assoc, (ReadString_line _ _ N).
    fold (trimmed l).
    destruct (String.eqb (trimmed l) "OK"); [discriminate|].
    destruct (HasPrefix (trimmed l) "ACK"); [discriminate|].
    rewrite IH by exact B. cbn [map]. now rewrite <- app_assoc.
Qed.

Lemma frame_length (pre : list string) (tail : string) :
  (length pre <= String.length (frame pre +:+ tail))%nat.
Proof.
  induction pre as [|l pre IH]; [simpl; lia|].
  cbn [frame length]. rewrite string_app_length in IH.
  rewrite !string_app_length. change (String.length lf) with 1%nat. lia.
Qed.

Lemma sendCommand_framed (c : Client) (command : string)
    (pre : list string) (last rest : string) :
  writable (conn c) <> 0%nat ->
  reader c = frame pre +:+ last +:+ lf +:+ rest ->
  forallb body_line pre = true ->
  closing_line last = true ->
  sendCommand c command =
  ({| conn := after_write (conn c) command; reader := rest |},
   reply_result command pre last).
Proof.
  intros W R B Cl. unfold sendCommand, Fprintln, after_write.
  apply andb_prop in Cl as [N Hend].
  destruct (writable (conn c)) as [|n] eqn:Wn; [contradiction|].
  assert (L : sendCommand_loop (length pre + 1) command (reader c) []
              = Some (rest, reply_result command pre last)).
  { rewrite R, sendCommand_loop_body by exact B.
    cbn [sendCommand_loop]. rewrite (ReadString_line _ _ N).
    fold (trimmed last). unfold reply_result. cbn [app].
    destruct (String.eqb (trimmed last) "OK"); [reflexivity|].
    cbn [orb] in Hend. now rewrite Hend. }
  rewrite (sendCommand_loop_mono _ (S (String.length (reader c))) _ _ _ _ L).
  - reflexivity.
  - rewrite R. pose proof (frame_length pre (last +:+ lf +:+ rest)). lia.
Qed.

Lemma sendCommand_write_fails (c : Client) (command : string) :
  writable (conn c) = 0%nat ->
  sendCommand c command = (c, Err (ErrSend command (write_error (conn c)))).
Proof.
  intros W. unfold sendCommand, Fprintln. rewrite W. now destruct c.
Qed.

(** C2, as the code has it. When the first closing line of a reply is an
    error line (after trimming it starts with [ACK]), [sendCommand]
    fails, hands back no response line, leaves the reader behind that
    line, and the error carries the whole trimmed line, marker included:
    its text is [mpd command '<command>' failed: <line>]. *)
Theorem sendCommand_ack (c : Client) (command : string)
    (pre : list string) (ack rest : string) :
  writable (conn c) <> 0%nat ->
  reader c = frame pre +:+ ack +:+ lf +:+ rest ->
  forallb body_line pre = true ->
  no_newline ack = true ->
  HasPrefix (trimmed ack) "ACK" = true ->
  sendCommand c command =
    ({| conn := after_write (conn c) command; reader := rest |},
     Err (ErrAck command (trimmed ack)))
  /\ error_string (ErrAck command (trimmed ack))
     = "mpd command '" +:+ command +:+ "' failed: " +:+ trimmed ack
  /\ exists detail, trimmed ack = "ACK" +:+ detail.
Proof.
  intros W R B N A.
  assert (O : String.eqb (trimmed ack) "OK" = false).
  { destruct (String.eqb_spec (trimmed ack) "OK") as [E|]; [|reflexivity].
    rewrite E in A. discriminate. }
  split; [|split].
  - rewrite (sendCommand_framed c command pre ack rest W R B).
    + unfold reply_result. now rewrite O.
    + unfold closing_line. now rewrite N, A, orb_true_r.
  - reflexivity.
  - exists (drop_bytes 3 (trimmed ack)). exact (HasPrefix_inv _ _ A).
Qed.

(** The reply [ACK [5@0] {play} malformed argument] after one body line. *)
Lemma sendCommand_ack_witness :
  sendCommand (serving ("volume: 50" +:+ lf +:+ "ACK [5@0] {play} malformed argument" +:+ lf))
    "play"
  = ({| conn := after_write (conn (serving EmptyString)) "play"; reader := EmptyString |},
     Err (ErrAck "play" (trimmed "ACK [5@0] {play} malformed argument")))
  /\ error_string (ErrAck "play" (trimmed "ACK [5@0] {play} malformed argument"))
     = "mpd command '" +:+ "play" +:+ "' failed: " +:+ trimmed "ACK [5@0] {play} malformed argument"
  /\ exists detail, trimmed "ACK [5@0] {play} malformed argument" = "ACK" +:+ detail.
Proof.
  apply (sendCommand_ack
           (serving ("volume: 50" +:+ lf +:+ "ACK [5@0] {play} malformed argument" +:+ lf))
           "play" ["volume: 50"] "ACK [5@0] {play} malformed argument" EmptyString).
  - simpl. lia.
  - reflexivity.
  - vm_compute. reflexivity.
  - vm_compute. reflexivity.
  - vm_compute. reflexivity.
Defined.

(** C2, as the claim has it, fails: the error of the reply
    [ACK [5@0] {play} malformed argument] carries the line with its
    marker, not the text after it. *)
Lemma sendCommand_ack_keeps_marker :
  snd (sendCommand (serving ("ACK [5@0] {play} malformed argument" +:+ lf)) "play")
  = Err (ErrAck "play" "ACK [5@0] {play} malformed argument")
  /\ error_string (ErrAck "play" "ACK [5@0] {play} malformed argument")
     = "mpd command 'play' failed: ACK [5@0] {play} malformed argument"
  /\ "ACK [5@0] {play} malformed argument" <> "[5@0] {play} malformed argument"
  /\ snd (sendCommand (serving ("ACK [5@0] {play} malformed argument" +:+ lf)) "play")
     <> Err (ErrAck "play" "[5@0] {play} malformed argument").
Proof.
  split; [vm_compute; reflexivity|].
  split; [vm_compute; reflexivity|].
  split; [discriminate|].
  vm_compute. discriminate.
Qed.

(** X2. A reply whose body lines are followed by a line that trims to
    [OK] makes [sendCommand] return the body lines, trimmed and in
    order, with the reader left behind that line. *)
Theorem sendCommand_reply_ok (c : Client) (command : string)
    (pre : list string) (ok rest : string) :
  writable (conn c) <> 0%nat ->
  reader c = frame pre +:+ ok +:+ lf +:+ rest ->
  forallb body_line pre = true ->
  no_newline ok = true ->
  trimmed ok = "OK" ->
  sendCommand c command =
    ({| conn := after_write (conn c) command; reader := rest |},
     Ok (map trimmed pre)).
Proof.
  intros W R B N O.
  rewrite (sendCommand_framed c command pre ok rest W R B).
  - unfold reply_result. now rewrite O.
  - unfold closing_line. now rewrite N, O.
Qed.

(** The reply to [play 3]: no line, then [OK]; and a status reply. *)
Lemma sendCommand_reply_ok_witness :
  sendCommand (serving ("OK" +:+ lf)) "play 3"
  = ({| conn := after_write (conn (serving ("OK" +:+ lf))) "play 3";
        reader := EmptyString |}, Ok (map trimmed []))
  /\ sendCommand (serving ("volume: 50" +:+ lf +:+ " state: stop " +:+ lf +:+ "OK" +:+ lf +:+ "x"))
       "status"
     = ({| conn := after_write (conn (serving EmptyString)) "status"; reader := "x" |},
        Ok (map trimmed ["volume: 50"; " state: stop "])).
Proof.
  split.
  - apply (sendCommand_reply_ok (serving ("OK" +:+ lf)) "play 3" [] "OK" EmptyString).
    + simpl. lia.
    + reflexivity.
    + reflexivity.
    + reflexivity.
    + vm_compute. reflexivity.
  - apply (sendCommand_reply_ok
             (serving ("volume: 50" +:+ lf +:+ " state: stop " +:+ lf +:+ "OK" +:+ lf +:+ "x"))
             "status" ["volume: 50"; " state: stop "] "OK" "x").
    + simpl. lia.
    + reflexivity.
    + vm_compute. reflexivity.
    + reflexivity.
    + vm_compute. reflexivity.
Defined.

(** X3. The read loop of [sendCommand] always ends: on every stream it
    gives its answer within the turns [sendCommand] allows it, one more
    than the bytes left to read. *)
Theorem sendCommand_loop_ends (c : Client) (command : string) :
  is_Some (sendCommand_loop (S (String.length (reader c))) command (reader c) []).
Proof. apply sendCommand_loop_fuel. lia. Qed.

(** ** [List] *)

Lemma lower_byte_idem (c : ascii) : lower_byte (lower_byte c) = lower_byte c.
Proof. destruct c as [[] [] [] [] [] [] [] []]; reflexivity. Qed.

Lemma lower_ascii_app (a b : string) : lower_ascii (a +:+ b) = lower_ascii a +:+ lower_ascii b.
Proof. induction a as [|x a IH]; simpl; [reflexivity | now rewrite IH]. Qed.

Lemma lower_ascii_length (s : string) : String.length (lower_ascii s) = String.length s.
Proof. induction s as [|x s IH]; simpl; [reflexivity | now rewrite IH]. Qed.

(** A prefix of a lowered string is in lower case itself. *)
Lemma HasPrefix_lower_ascii_fixed (line p : string) :
  HasPrefix (lower_ascii line) p = true -> lower_ascii p = p.
Proof.
  revert line. induction p as [|x p IH]; intros line H; [reflexivity|].
  destruct line as [|c line]; [discriminate|].
  simpl in H. destruct (Ascii.eqb_spec (lower_byte c) x) as [<-|]; [|discriminate].
  simpl. now rewrite lower_byte_idem, (IH line H).
Qed.

Lemma lower_ascii_app_fixed (a b : string) :
  lower_ascii (a +:+ b) = a +:+ b -> lower_ascii a = a.
Proof.
  rewrite lower_ascii_app. induction a as [|x a IH]; intros E; [reflexivity|].
  simpl in E. injection E as E1 E2. simpl. now rewrite E1, (IH E2).
Qed.

(** A prefix is no longer than the string it starts. *)
Lemma HasPrefix_length (s p : string) :
  HasPrefix s p = true -> (String.length p <= String.length s)%nat.
Proof.
  revert s. induction p as [|x p IH]; intros s H; simpl; [lia|].
  destruct s as [|c s]; [discriminate|].
  simpl in H. destruct (Ascii.eqb c x); [|discriminate].
  apply IH in H. simpl. lia.
Qed.

(** On a line of ASCII bytes the rune tables are not consulted. *)
Lemma ToLower_ascii (lower_runes : string -> string) (s : string) :
  is_ascii s = true -> ToLower lower_runes s = lower_ascii s.
Proof. intros A. unfold ToLower. now rewrite A. Qed.

(** On lines of ASCII bytes the loop never panics: the lowered line is
    as long as the line, so the slice is in range. *)
Lemma List_values_loop_ascii (lower_runes : string -> string) (tag : string)
    (lines : list string) :
  forallb is_ascii lines = true ->
  forall values,
  List_values_loop lower_runes (tag +:+ ": ") lines values
  = Returns (values ++ omap (List_value tag) lines).
Proof.
  induction lines as [|l lines IH]; intros A values.
  - simpl. now rewrite app_nil_r.
  - simpl in A. apply andb_true_iff in A as [Al A].
    cbn [List_values_loop omap list_omap]. rewrite (ToLower_ascii _ _ Al).
    unfold List_value at 1.
    destruct (HasPrefix (lower_ascii l) (tag +:+ ": ")) eqn:P.
    + apply HasPrefix_length in P. rewrite lower_ascii_length in P.
      unfold slice_from. apply Nat.leb_le in P. rewrite P.
      rewrite (IH A). now rewrite <- app_assoc.
    + apply (IH A).
Qed.

Lemma List_values_omap (lower_runes : string -> string) (tag : string)
    (lines : list string) :
  forallb is_ascii lines = true ->
  List_values lower_runes tag lines = Returns (omap (List_value tag) lines).
Proof.
  intros A. unfold List_values. now rewrite (List_values_loop_ascii _ _ _ A).
Qed.

(** A tag with a capital letter matches no line of ASCII bytes at all:
    the line is lowered before the comparison, the tag is not. *)
Lemma List_values_capital_tag (lower_runes : string -> string) (tag : string)
    (lines : list string) :
  lower_ascii tag <> tag -> forallb is_ascii lines = true ->
  List_values lower_runes tag lines = Returns [].
Proof.
  intros U A. rewrite (List_values_omap _ _ _ A). f_equal.
  assert (N : forall l, List_value tag l = None).
  { intros l. unfold List_value.
    destruct (HasPrefix (lower_ascii l) (tag +:+ ": ")) eqn:P; [|reflexivity].
    destruct U. eapply lower_ascii_app_fixed, HasPrefix_lower_ascii_fixed, P. }
  clear A. induction lines as [|l lines IH]; [reflexivity|].
  simpl. rewrite N. exact IH.
Qed.

Lemma lower_byte_colon_space (c : ascii) :
  (lower_byte c = ":"%char -> c = ":"%char) /\ (lower_byte c = " "%char -> c = " "%char).
Proof. destruct c as [[] [] [] [] [] [] [] []]; split; intros H; solve [reflexivity | discriminate H]. Qed.

Lemma HasPrefix_lower_ascii_split (p : string) :
  forall line,
  HasPrefix (lower_ascii line) (p +:+ ": ") = true ->
  exists t, line = t +:+ ": " +:+ drop_bytes (String.length (p +:+ ": ")) line
            /\ lower_ascii t = p.
Proof.
  induction p as [|x p IH]; intros line P.
  - exists EmptyString. split; [|reflexivity].
    destruct line as [|c1 [|c2 line]]; simpl in P; try discriminate.
    + destruct (Ascii.eqb (lower_byte c1) ":"); discriminate.
    + destruct (Ascii.eqb_spec (lower_byte c1) ":") as [E1|]; [|discriminate].
      destruct (Ascii.eqb_spec (lower_byte c2) " ") as [E2|]; [|discriminate].
      apply (proj1 (lower_byte_colon_space c1)) in E1.
      apply (proj2 (lower_byte_colon_space c2)) in E2. now subst.
  - destruct line as [|c line]; [discriminate|].
    simpl in P. destruct (Ascii.eqb_spec (lower_byte c) x) as [E|]; [|discriminate].
    destruct (IH line P) as (t & E1 & E2).
    exists (String c t). split.
    + simpl. f_equal. exact E1.
    + simpl. now rewrite E, E2.
Qed.

(** A line is kept exactly when it reads [t: v] with the lowered [t]
    equal to the tag as written, and what is kept is [v], as received:
    for a tag in lower case, [t] is the tag up to the case of its
    letters. *)
Lemma List_value_spec (tag line v : string) :
  List_value tag line = Some v <->
  exists t, line = t +:+ ": " +:+ v /\ lower_ascii t = tag.
Proof.
  unfold List_value. split.
  - destruct (HasPrefix (lower_ascii line) (tag +:+ ": ")) eqn:P; [|discriminate].
    intros E. injection E as <-. now apply HasPrefix_lower_ascii_split.
  - intros (t & -> & <-).
    replace (lower_ascii (t +:+ ": " +:+ v)) with ((lower_ascii t +:+ ": ") +:+ lower_ascii v).
    + rewrite HasPrefix_app. f_equal.
      rewrite string_app_length, lower_ascii_length, <- string_app_length.
      rewrite <- string_app_assoc. apply drop_bytes_app.
    + now rewrite !lower_ascii_app, string_app_assoc.
Qed.

(** X1. On a reply of ASCII lines [List] keeps, in the order of the
    reply, exactly the lines that read [t: v] with the lowered [t] equal
    to the tag as written, and returns the [v] of each as received: for
    a tag in lower case the tag is matched whatever the case of the
    line's letters, a line that does not match is passed over, and no
    slice is out of range. *)
Theorem List_values_spec (lower_runes : string -> string) (tag : string)
    (lines : list string) :
  forallb is_ascii lines = true ->
  List_values lower_runes tag lines = Returns (omap (List_value tag) lines)
  /\ forall line v,
       List_value tag line = Some v <->
       exists t, line = t +:+ ": " +:+ v /\ lower_ascii t = tag.
Proof.
  intros A. split; [now apply List_values_omap|].
  intros line v. apply List_value_spec.
Qed.

Lemma List_values_spec_witness :
  forallb is_ascii ["genre: Rock"; "stray"; "GENRE: Jazz"; "Genre: "] = true
  /\ forall lower_runes,
     List_values lower_runes "genre" ["genre: Rock"; "stray"; "GENRE: Jazz"; "Genre: "]
     = Returns ["Rock"; "Jazz"; ""].
Proof.
  split; [reflexivity|].
  intros lower_runes.
  exact (proj1 (List_values_spec lower_runes "genre"
                  ["genre: Rock"; "stray"; "GENRE: Jazz"; "Genre: "] eq_refl)).
Defined.

(** The values loop panics exactly when some line of the reply, once
    lowered, starts with the prefix although the line as received is
    shorter than the prefix. *)
Lemma List_values_loop_panics (lower_runes : string -> string) (prefix : string)
    (lines : list string) :
  forall values,
  List_values_loop lower_runes prefix lines values = Panics <->
  exists line, In line lines
               /\ HasPrefix (ToLower lower_runes line) prefix = true
               /\ (String.length line < String.length prefix)%nat.
Proof.
  induction lines as [|l lines IH]; intros values; cbn [List_values_loop].
  - split; [discriminate|]. intros (line & [] & _).
  - destruct (HasPrefix (ToLower lower_runes l) prefix) eqn:P.
    + unfold slice_from.
      destruct (Nat.leb_spec (String.length prefix) (String.length l)) as [Le|Lt].
      * rewrite IH. split.
        { intros (line & I & H). exists line. split; [now right | exact H]. }
        intros (line & [<-|I] & H & Lt); [lia|]. now exists line.
      * split; [|reflexivity]. intros _. exists l. split; [now left|]. now split.
    + rewrite IH. split.
      * intros (line & I & H). exists line. split; [now right | exact H].
      * intros (line & [<-|I] & H & Lt); [congruence|]. now exists line.
Qed.

(** X16. [List] can panic after its command is built, in the slice
    [line[len(prefix):]] of its values loop: this happens exactly when
    some line of the reply, once lowered, starts with [tag + ": "]
    although the line as received has fewer bytes than that prefix.
    No line of ASCII bytes does so. *)
Theorem List_values_panics (lower_runes : string -> string) (tag : string)
    (lines : list string) :
  (List_values lower_runes tag lines = Panics <->
   exists line, In line lines
                /\ HasPrefix (ToLower lower_runes line) (tag +:+ ": ") = true
                /\ (String.length line < String.length (tag +:+ ": "))%nat)
  /\ forall line,
       HasPrefix (ToLower lower_runes line) (tag +:+ ": ") = true ->
       (String.length line < String.length (tag +:+ ": "))%nat ->
       is_ascii line = false.
Proof.
  split; [apply List_values_loop_panics|].
  intros line P Lt. destruct (is_ascii line) eqn:A; [|reflexivity].
  rewrite (ToLower_ascii _ _ A) in P. apply HasPrefix_length in P.
  rewrite lower_ascii_length in P. lia.
Qed.

(** The slice does go out of range on a line whose lowered text is
    longer than the line: [U+023A] takes two bytes and its lower case
    [U+2C65] three, so with the tag [U+2C65 U+2C65] the line
    [U+023A U+023A: x] of seven bytes is sliced from byte eight. *)
Example List_slice_out_of_range :
  forall lower_runes,
  lower_runes (bytes [200; 186; 200; 186; 58; 32; 120]%nat)
  = bytes [226; 177; 165; 226; 177; 165; 58; 32; 120]%nat ->
  List lower_runes
    (serving (bytes [200; 186; 200; 186; 58; 32; 120]%nat +:+ lf +:+ "OK" +:+ lf))
    (bytes [226; 177; 165; 226; 177; 165]%nat) []
  = Panics.
Proof.
  intros lower_runes E.
  unfold List.
  replace (List_command (bytes [226; 177; 165; 226; 177; 165]%nat) [])
    with (Returns ("list " +:+ bytes [226; 177; 165; 226; 177; 165]%nat))
    by (vm_compute; reflexivity).
  replace (sendCommand _ _)
    with ({| conn := after_write (conn (serving EmptyString))
                       ("list " +:+ bytes [226; 177; 165; 226; 177; 165]%nat);
             reader := EmptyString |},
          Ok (A := list string) [bytes [200; 186; 200; 186; 58; 32; 120]%nat])
    by (vm_compute; reflexivity).
  unfold List_values. cbn [List_values_loop]. unfold ToLower.
  replace (is_ascii _) with false by (vm_compute; reflexivity).
  rewrite E. vm_compute. reflexivity.
Qed.

(** C6, at the input on which the code misses it: the tag [Genre] is
    compared as written with the lowered line, so the reply
    [Genre: Rock], [Genre: Jazz] yields no value at all, where the same
    reply to the tag [genre] yields both. *)
Theorem List_capital_tag_loses_values :
  forall lower_runes,
  List lower_runes
    (serving ("Genre: Rock" +:+ lf +:+ "Genre: Jazz" +:+ lf +:+ "OK" +:+ lf)) "Genre" []
  = Returns ({| conn := after_write (conn (serving EmptyString)) "list Genre";
                reader := EmptyString |}, Ok [])
  /\ List lower_runes
       (serving ("Genre: Rock" +:+ lf +:+ "Genre: Jazz" +:+ lf +:+ "OK" +:+ lf)) "genre" []
     = Returns ({| conn := after_write (conn (serving EmptyString)) "list genre";
                   reader := EmptyString |}, Ok ["Rock"; "Jazz"]).
Proof. intros lower_runes. split; vm_compute; reflexivity. Qed.

(** ** [decodeStatus] *)

Lemma Status_ext (a b : Status) :
  State a = State b -> Volume a = Volume b -> Repeat a = Repeat b ->
  Random a = Random b -> Single a = Single b -> Consume a = Consume b ->
  PlaylistLength a = PlaylistLength b -> Song a = Song b ->
  SongID a = SongID b -> NextSong a = NextSong b ->
  NextSongID a = NextSongID b -> Duration a = Duration b ->
  Elapsed a = Elapsed b -> Bitrate a = Bitrate b -> Error a = Error b ->
  Artist a = Artist b -> Album a = Album b -> Title a = Title b ->
  a = b.
Proof. destruct a, b; simpl; intros; subst; reflexivity. Qed.

(** A guarded assignment does not show through a projection it leaves
    alone. *)
Lemma if_key_other {A : Type} (P : Status -> A) kv key f s :
  (forall v s', P (f v s') = P s') -> P (if_key kv key f s) = P s.
Proof. intros H. unfold if_key. destruct (kv !! key); [apply H | reflexivity]. Qed.

Lemma if_key_this {A : Type} (P : Status -> A) (g : string -> A) kv key f s :
  (forall v s', P (f v s') = g v) ->
  P (if_key kv key f s) = match kv !! key with Some v => g v | None => P s end.
Proof. intros H. unfold if_key. destruct (kv !! key); [apply H | reflexivity]. Qed.

Ltac peel P :=
  repeat (rewrite (if_key_other P) by (intros; reflexivity)).

Section DecodeFacts.

Variable ParseFloat : string -> float * option NumError.

(** Each field of the decoded status, read off its own key. *)
Lemma decodeStatus_fields (kv : gmap string string) :
  decodeStatus ParseFloat kv =
  {| State := default "" (kv !! "state");
     Volume := from_option (fun v => fst (Atoi v)) (-1) (kv !! "volume");
     Repeat := from_option (fun v => String.eqb v "1") false (kv !! "repeat");
     Random := from_option (fun v => String.eqb v "1") false (kv !! "random");
     Single := from_option (fun v => String.eqb v "1") false (kv !! "single");
     Consume := from_option (fun v => String.eqb v "1") false (kv !! "consume");
     PlaylistLength := from_option (fun v => fst (Atoi v)) 0 (kv !! "playlistlength");
     Song := from_option (fun v => fst (Atoi v)) 0 (kv !! "song");
     SongID := from_option (fun v => fst (Atoi v)) (-1) (kv !! "songid");
     NextSong := from_option (fun v => fst (Atoi v)) 0 (kv !! "nextsong");
     NextSongID := from_option (fun v => fst (Atoi v)) (-1) (kv !! "nextsongid");
     Duration := from_option (fun v => int_of_float64 (fst (ParseFloat v))) 0
                   (kv !! "duration");
     Elapsed := from_option (fun v => fst (ParseFloat v)) 0%float (kv !! "elapsed");
     Bitrate := from_option (fun v => fst (Atoi v)) 0 (kv !! "bitrate");
     Error := default "" (kv !! "error");
     Artist := ""; Album := ""; Title := "" |}.
Proof.
  unfold decodeStatus.
  apply Status_ext; cbn [State Volume Repeat Random Single Consume PlaylistLength
                          Song SongID NextSong NextSongID Duration Elapsed Bitrate
                          Error Artist Album Title].
  - peel State. rewrite (if_key_this State (fun v => v)) by reflexivity.
    now destruct (kv !! "state").
  - peel Volume. rewrite (if_key_this Volume (fun v => fst (Atoi v))) by reflexivity.
    peel Volume. now destruct (kv !! "volume").
  - peel Repeat. rewrite (if_key_this Repeat (fun v => String.eqb v "1")) by reflexivity.
    peel Repeat. now destruct (kv !! "repeat").
  - peel Random. rewrite (if_key_this Random (fun v => String.eqb v "1")) by reflexivity.
    peel Random. now destruct (kv !! "random").
  - peel Single. rewrite (if_key_this Single (fun v => String.eqb v "1")) by reflexivity.
    peel Single. now destruct (kv !! "single").
  - peel Consume. rewrite (if_key_this Consume (fun v => String.eqb v "1")) by reflexivity.
    peel Consume. now destruct (kv !! "consume").
  - peel PlaylistLength.
    rewrite (if_key_this PlaylistLength (fun v => fst (Atoi v))) by reflexivity.
    peel PlaylistLength. now destruct (kv !! "playlistlength").
  - peel Song. rewrite (if_key_this Song (fun v => fst (Atoi v))) by reflexivity.
    peel Song. now destruct (kv !! "song").
  - peel SongID. rewrite (if_key_this SongID (fun v => fst (Atoi v))) by reflexivity.
    peel SongID. now destruct (kv !! "songid").
  - peel NextSong. rewrite (if_key_this NextSong (fun v => fst (Atoi v))) by reflexivity.
    peel NextSong. now destruct (kv !! "nextsong").
  - peel NextSongID.
    rewrite (if_key_this NextSongID (fun v => fst (Atoi v))) by reflexivity.
    peel NextSongID. now destruct (kv !! "nextsongid").
  - peel Duration.
    rewrite (if_key_this Duration (fun v => int_of_float64 (fst (ParseFloat v))))
      by reflexivity.
    peel Duration. now destruct (kv !! "duration").
  - peel Elapsed. rewrite (if_key_this Elapsed (fun v => fst (ParseFloat v))) by reflexivity.
    peel Elapsed. now destruct (kv !! "elapsed").
  - peel Bitrate. rewrite (if_key_this Bitrate (fun v => fst (Atoi v))) by reflexivity.
    peel Bitrate. now destruct (kv !! "bitrate").
  - rewrite (if_key_this Error (fun v => v)) by reflexivity.
    peel Error. now destruct (kv !! "error").
  - peel Artist. reflexivity.
  - peel Album. reflexivity.
  - peel Title. reflexivity.
Qed.

End DecodeFacts.

(** C4. A key missing from the reply leaves its field at the default:
    state empty, volume -1, the four flags false, playlist length 0,
    both queue positions 0, both ids -1, duration, elapsed and bitrate
    0, error empty.  The decoding itself has no failure: it is a total
    function of the mapping. *)
Theorem decodeStatus_missing_key
    (ParseFloat : string -> float * option NumError)
    (kv : gmap string string) (f : Field) :
  kv !! field_key f = None ->
  at_default f (decodeStatus ParseFloat kv).
Proof.
  intros H. rewrite decodeStatus_fields.
  destruct f; cbn [field_key] in H; cbn [at_default]; simpl; now rewrite H.
Qed.

(** A reply that has a state and a song position but no volume. *)
Lemma decodeStatus_missing_key_witness :
  (<["state" := "play"]> (<["song" := "3"]> (∅ : gmap string string)))
    !! field_key FVolume = None
  /\ forall ParseFloat,
     at_default FVolume
       (decodeStatus ParseFloat (<["state" := "play"]> (<["song" := "3"]> ∅))).
Proof.
  split; [vm_compute; reflexivity|].
  intros ParseFloat.
  apply (decodeStatus_missing_key ParseFloat
           (<["state" := "play"]> (<["song" := "3"]> ∅)) FVolume).
  vm_compute. reflexivity.
Defined.

(** [Atoi] returns 0 with a syntax error, and a bound of [int] with a
    range error. *)
Lemma Atoi_syntax (v : string) :
  snd (Atoi v) = Some ErrSyntax -> fst (Atoi v) = 0.
Proof.
  unfold Atoi, ParseInt. destruct v as [|c v]; [reflexivity|].
  cbv zeta.
  destruct (ParseUint _) as [un [[]|]]; [reflexivity| |];
    repeat (match goal with |- context [if ?b then _ else _] => destruct b end);
    simpl; intros; congruence.
Qed.

Lemma Atoi_range (v : string) :
  snd (Atoi v) = Some ErrRange -> fst (Atoi v) = maxInt \/ fst (Atoi v) = minInt.
Proof.
  unfold Atoi, ParseInt. destruct v as [|c v]; [discriminate|].
  cbv zeta.
  destruct (ParseUint _) as [un [[]|]]; [discriminate| |];
    repeat (match goal with |- context [if ?b then _ else _] => destruct b end);
    simpl; intros; try discriminate; auto.
Qed.

(** C1, as the code has it. A numeric field whose text is no number is
    assigned what the parser returns with its syntax error, which is 0;
    every other field is decoded as it is without that entry.  For
    playlist length, the two positions, duration, elapsed and bitrate 0
    is the default; for volume and the two ids the default is -1. *)
Theorem decodeStatus_not_a_number
    (ParseFloat : string -> float * option NumError)
    (kv : gmap string string) (n : NumField) (v : string) :
  (forall s, snd (ParseFloat s) = Some ErrSyntax -> fst (ParseFloat s) = 0%float) ->
  not_a_number ParseFloat n v ->
  decodeStatus ParseFloat (<[num_key n := v]> kv)
  = set_zero n (decodeStatus ParseFloat (delete (num_key n) kv)).
Proof.
  intros Hpf Hv. rewrite !decodeStatus_fields.
  destruct n; cbn [num_key not_a_number set_zero] in *;
    try (apply Atoi_syntax in Hv); try (apply Hpf in Hv);
    apply Status_ext; simpl;
    rewrite ?lookup_insert_eq, ?lookup_insert_ne, ?lookup_delete_ne by discriminate;
    simpl; rewrite ?Hv; reflexivity.
Qed.

Lemma sample_ParseFloat_syntax (s : string) :
  snd (sample_ParseFloat s) = Some ErrSyntax -> fst (sample_ParseFloat s) = 0%float.
Proof.
  unfold sample_ParseFloat.
  repeat (match goal with |- context [if ?b then _ else _] => destruct b end);
    simpl; intros; congruence.
Qed.

(** A reply whose elapsed time is not a number, among good fields. *)
Lemma decodeStatus_not_a_number_witness :
  not_a_number sample_ParseFloat NElapsed "n/a"
  /\ decodeStatus sample_ParseFloat
       (<[num_key NElapsed := "n/a"]>
          (<["state" := "play"]> (<["volume" := "50"]> (<["duration" := "245.5"]> ∅))))
     = set_zero NElapsed
         (decodeStatus sample_ParseFloat
            (delete (num_key NElapsed)
               (<["state" := "play"]> (<["volume" := "50"]> (<["duration" := "245.5"]> ∅))))).
Proof.
  split; [vm_compute; reflexivity|].
  apply (decodeStatus_not_a_number sample_ParseFloat
           (<["state" := "play"]> (<["volume" := "50"]> (<["duration" := "245.5"]> ∅)))
           NElapsed "n/a").
  - exact sample_ParseFloat_syntax.
  - vm_compute. reflexivity.
Defined.

(** C1, as the claim has it, fails: a volume, a song id or a next song
    id that is no number ends as 0, not as the default -1, and a number
    too large for [int] ends as the largest [int]. *)
Lemma decodeStatus_unparsable_not_default :
  Atoi "abc" = (0, Some ErrSyntax)
  /\ (forall ParseFloat,
        Volume (decodeStatus ParseFloat (<["volume" := "abc"]> ∅)) = 0
        /\ SongID (decodeStatus ParseFloat (<["songid" := "abc"]> ∅)) = 0
        /\ NextSongID (decodeStatus ParseFloat (<["nextsongid" := "abc"]> ∅)) = 0)
  /\ Volume Status_defaults = -1
  /\ SongID Status_defaults = -1
  /\ NextSongID Status_defaults = -1
  /\ Atoi "99999999999999999999" = (maxInt, Some ErrRange)
  /\ (forall ParseFloat,
        PlaylistLength
          (decodeStatus ParseFloat (<["playlistlength" := "99999999999999999999"]> ∅))
        = maxInt).
Proof.
  split; [vm_compute; reflexivity|].
  split; [intros; rewrite !decodeStatus_fields; vm_compute; repeat split|].
  do 4 (split; [vm_compute; reflexivity|]).
  intros. vm_compute. reflexivity.
Qed.

(** ** [NewClient] *)

(** C7. [NewClient] hands back a client only if the dial opened a stream
    whose first line was read whole and starts with [OK MPD], compared
    byte by byte; the stream is then left open.  Otherwise it fails with
    no client: on a refused dial there is nothing to close; on a failed
    read of the greeting, or a greeting that does not start with the
    sentinel, the stream just opened is closed first. *)
Theorem NewClient_greeting (w : World) (addr : string) :
  match NewClient w addr with
  | (w', Ok c) =>
      exists stream accepts broken line,
        network w (dials w) = DialOpens stream accepts broken
        /\ ReadString stream = (line, reader c, None)
        /\ HasPrefix line "OK MPD" = true
        /\ conn c = {| conn_id := dials w; sent := []; writable := accepts;
                       write_error := broken |}
        /\ w' = dialled w addr
  | (w', Err e) =>
      (exists cause,
         network w (dials w) = DialFails cause
         /\ e = ErrDial addr cause
         /\ w' = dialled w addr)
      \/ (exists stream accepts broken line rest,
            network w (dials w) = DialOpens stream accepts broken
            /\ w' = emit [EvClose (dials w)] (dialled w addr)
            /\ ((exists cause, ReadString stream = (line, rest, Some cause)
                               /\ e = ErrWelcomeRead cause)
                \/ (ReadString stream = (line, rest, None)
                    /\ HasPrefix line "OK MPD" = false
                    /\ e = ErrWelcomeUnexpected line)))
  end.
Proof.
  unfold NewClient, Dial. fold (dialled w addr).
  destruct (network w (dials w)) as [cause|stream accepts broken] eqn:N.
  - left. exists cause. repeat split; reflexivity.
  - cbn [reader conn].
    destruct (ReadString stream) as [[line rest] [cause|]] eqn:R.
    + right. exists stream, accepts, broken, line, rest.
      split; [reflexivity|]. split; [reflexivity|]. left. now exists cause.
    + destruct (HasPrefix line "OK MPD") eqn:P; cbn [negb].
      * exists stream, accepts, broken, line. now repeat split.
      * right. exists stream, accepts, broken, line, rest.
        split; [reflexivity|]. split; [reflexivity|]. right. now repeat split.
Qed.

(** A greeting in the wrong case, a greeting cut short, and a good one. *)
Example NewClient_examples :
  let world greeting :=
    {| network := fun _ => DialOpens greeting 10 (IOError "broken pipe");
       dials := 0; trace := []; CurrentStatus := None |} in
  NewClient (world ("ok mpd 0.23.5" +:+ lf)) "127.0.0.1:6600"
  = (emit [EvClose 0] (dialled (world ("ok mpd 0.23.5" +:+ lf)) "127.0.0.1:6600"),
     Err (ErrWelcomeUnexpected ("ok mpd 0.23.5" +:+ lf)))
  /\ NewClient (world "OK MPD 0.23.5") "127.0.0.1:6600"
     = (emit [EvClose 0] (dialled (world "OK MPD 0.23.5") "127.0.0.1:6600"),
        Err (ErrWelcomeRead EOF))
  /\ snd (NewClient (world ("OK MPD 0.23.5" +:+ lf +:+ "rest")) "127.0.0.1:6600")
     = Ok {| conn := {| conn_id := 0; sent := []; writable := 10;
                        write_error := IOError "broken pipe" |};
             reader := "rest" |}.
Proof. repeat split. Qed.

(** ** [Status] *)

Lemma sendCommand_sent (c : Client) (command : string) :
  sent (conn (fst (sendCommand c command)))
  = match writable (conn c) with
    | O => sent (conn c)
    | S _ => sent (conn c) ++ [command +:+ lf]
    end.
Proof.
  unfold sendCommand, Fprintln. destruct (writable (conn c)); [reflexivity|].
  now destruct (sendCommand_loop _ _ _ _) as [[rd r]|].
Qed.

Lemma Client_Status_fails (ParseFloat : string -> float * option NumError)
    (c c1 : Client) (e : error) :
  sendCommand c "status" = (c1, Err e) ->
  Client_Status ParseFloat c = (c1, [], Err e).
Proof. intros H. unfold Client_Status. now rewrite H. Qed.

(** C8. After a good reply to [status], decoded to [s] with empty
    metadata: unless the state is [play] or [pause] nothing more is sent
    and [s] is the result; in those two states [currentsong] is sent,
    and then either its reply fills artist, album and title, or its
    failure is logged and [s] is the result all the same. *)
Theorem Client_Status_metadata
    (ParseFloat : string -> float * option NumError)
    (c c1 : Client) (lines : list string) :
  sendCommand c "status" = (c1, Ok lines) ->
  Artist (decodeStatus ParseFloat (parseKVP lines)) = ""
  /\ Album (decodeStatus ParseFloat (parseKVP lines)) = ""
  /\ Title (decodeStatus ParseFloat (parseKVP lines)) = ""
  /\ (State (decodeStatus ParseFloat (parseKVP lines)) <> "play" ->
      State (decodeStatus ParseFloat (parseKVP lines)) <> "pause" ->
      Client_Status ParseFloat c
      = (c1, [], Ok (decodeStatus ParseFloat (parseKVP lines))))
  /\ (State (decodeStatus ParseFloat (parseKVP lines)) = "play"
      \/ State (decodeStatus ParseFloat (parseKVP lines)) = "pause" ->
      Client_Status ParseFloat c
      = (fst (sendCommand c1 "currentsong"),
         match snd (sendCommand c1 "currentsong") with
         | Err e => [LogCurrentSongFailed e]
         | Ok _ => []
         end,
         Ok match snd (sendCommand c1 "currentsong") with
            | Err _ => decodeStatus ParseFloat (parseKVP lines)
            | Ok currentSongLines =>
                with_song (parseKVP currentSongLines)
                  (decodeStatus ParseFloat (parseKVP lines))
            end)
      /\ (writable (conn c1) <> 0%nat ->
          sent (conn (fst (sendCommand c1 "currentsong")))
          = sent (conn c1) ++ ["currentsong" +:+ lf])).
Proof.
  intros H. split; [|split; [|split; [|split]]].
  - now rewrite decodeStatus_fields.
  - now rewrite decodeStatus_fields.
  - now rewrite decodeStatus_fields.
  - intros NP NS. unfold Client_Status. rewrite H.
    destruct (String.eqb_spec (State (decodeStatus ParseFloat (parseKVP lines))) "play");
      [contradiction|].
    destruct (String.eqb_spec (State (decodeStatus ParseFloat (parseKVP lines))) "pause");
      [contradiction|].
    reflexivity.
  - intros PS. split.
    + unfold Client_Status. rewrite H.
      assert (B : String.eqb (State (decodeStatus ParseFloat (parseKVP lines))) "play"
                  || String.eqb (State (decodeStatus ParseFloat (parseKVP lines))) "pause"
                  = true).
      { destruct PS as [-> | ->]; reflexivity. }
      rewrite B. now destruct (sendCommand c1 "currentsong") as [c2 [ls|e]].
    + intros W. rewrite sendCommand_sent.
      destruct (writable (conn c1)); [contradiction | reflexivity].
Qed.

(** The replies [state: play] and [Artist: X], [Title: Y]. *)
Lemma Client_Status_metadata_witness :
  sendCommand
    (serving ("state: play" +:+ lf +:+ "OK" +:+ lf
              +:+ "Artist: X" +:+ lf +:+ "Title: Y" +:+ lf +:+ "OK" +:+ lf))
    "status"
  = ({| conn := after_write (conn (serving EmptyString)) "status";
        reader := "Artist: X" +:+ lf +:+ "Title: Y" +:+ lf +:+ "OK" +:+ lf |},
     Ok ["state: play"])
  /\ forall ParseFloat,
     Artist (decodeStatus ParseFloat (parseKVP ["state: play"])) = ""
     /\ Album (decodeStatus ParseFloat (parseKVP ["state: play"])) = ""
     /\ Title (decodeStatus ParseFloat (parseKVP ["state: play"])) = "".
Proof.
  split; [vm_compute; reflexivity|].
  intros ParseFloat.
  pose proof (Client_Status_metadata ParseFloat
                (serving ("state: play" +:+ lf +:+ "OK" +:+ lf
                          +:+ "Artist: X" +:+ lf +:+ "Title: Y" +:+ lf +:+ "OK" +:+ lf))
                {| conn := after_write (conn (serving EmptyString)) "status";
                   reader := "Artist: X" +:+ lf +:+ "Title: Y" +:+ lf +:+ "OK" +:+ lf |}
                ["state: play"] eq_refl) as (A & B & C & _).
  exact (conj A (conj B C)).
Defined.

(** The two replies of the specification: playing with metadata, and
    stopped, where [currentsong] is never sent. *)
Example Client_Status_examples :
  forall ParseFloat,
  (let '(c, logged, r) :=
     Client_Status ParseFloat
       (serving ("state: play" +:+ lf +:+ "OK" +:+ lf
                 +:+ "Artist: X" +:+ lf +:+ "Title: Y" +:+ lf +:+ "OK" +:+ lf)) in
   sent (conn c) = ["status" +:+ lf; "currentsong" +:+ lf] /\ logged = []
   /\ r = Ok (set_Title "Y" (set_Artist "X" (set_State "play" Status_defaults))))
  /\ (let '(c, logged, r) :=
        Client_Status ParseFloat (serving ("state: stop" +:+ lf +:+ "OK" +:+ lf)) in
      sent (conn c) = ["status" +:+ lf] /\ logged = []
      /\ r = Ok (set_State "stop" Status_defaults))
  /\ (let '(c, logged, r) :=
        Client_Status ParseFloat
          (serving ("state: pause" +:+ lf +:+ "OK" +:+ lf +:+ "ACK [50@0] {currentsong} gone" +:+ lf)) in
      sent (conn c) = ["status" +:+ lf; "currentsong" +:+ lf]
      /\ logged = [LogCurrentSongFailed (ErrAck "currentsong" "ACK [50@0] {currentsong} gone")]
      /\ r = Ok (set_State "pause" Status_defaults)).
Proof. intros ParseFloat. vm_compute. repeat split. Qed.

(** ** [WatchStatus] *)

Lemma sendCommand_conn_id (c : Client) (command : string) :
  conn_id (conn (fst (sendCommand c command))) = conn_id (conn c).
Proof.
  unfold sendCommand, Fprintln. destruct (writable (conn c)); [reflexivity|].
  now destruct (sendCommand_loop _ _ _ _) as [[rd r]|].
Qed.

Section WatchFacts.

Variable ParseFloat : string -> float * option NumError.
Variable addr : string.
Variable interval : Z.

Local Notation "'step'" := (WatchStatus_step ParseFloat addr interval).
Local Notation "'run'" := (WatchStatus_run ParseFloat addr interval).

Lemma Client_Status_conn_id (c c' : Client) logged r :
  Client_Status ParseFloat c = (c', logged, r) ->
  conn_id (conn c') = conn_id (conn c).
Proof.
  unfold Client_Status.
  pose proof (sendCommand_conn_id c "status") as I1.
  destruct (sendCommand c "status") as [c1 [lines|e]]; simpl in I1.
  - pose proof (sendCommand_conn_id c1 "currentsong") as I2.
    destruct (_ || _).
    + destruct (sendCommand c1 "currentsong") as [c2 [ls|e]]; simpl in I2;
        intros E; injection E as <- _ _; congruence.
    + intros E; injection E as <- _ _; congruence.
  - intros E; injection E as <- _ _; congruence.
Qed.


(** The four turns of the loop. *)
Lemma step_connect_fails (w w' : World) (err : error) :
  NewClient w addr = (w', Err err) ->
  step (Connecting, w)
  = (Connecting, emit [EvLog (LogConnectFailed addr err interval); EvSleep interval] w').
Proof. intros H. cbn [WatchStatus_step]. now rewrite H. Qed.

Lemma step_connect_opens (w w' : World) (client : Client) :
  NewClient w addr = (w', Ok client) ->
  step (Connecting, w)
  = (Polling client, emit [EvLog (LogConnected addr); EvNewTicker interval] w').
Proof. intros H. cbn [WatchStatus_step]. now rewrite H. Qed.

Lemma step_poll_fails (w : World) (client client' : Client) logged (err : error) :
  Client_Status ParseFloat client = (client', logged, Err err) ->
  step (Polling client, w)
  = (Connecting,
     emit ([EvTick] ++ map EvLog logged
           ++ [EvLog (LogStatusFailed err); EvClose (conn_id (conn client)); EvTickerStop]) w).
Proof.
  intros H. cbn [WatchStatus_step]. rewrite H.
  rewrite <- (Client_Status_conn_id _ _ _ _ H).
  unfold Close, emit. cbn [trace network dials CurrentStatus].
  f_equal. f_equal. rewrite <- !app_assoc. reflexivity.
Qed.

Lemma step_poll_publishes (w : World) (client client' : Client) logged (status : Status) :
  Client_Status ParseFloat client = (client', logged, Ok status) ->
  step (Polling client, w)
  = (Polling client',
     set_CurrentStatus status (emit ([EvTick] ++ map EvLog logged ++ [EvPublish status]) w)).
Proof.
  intros H. cbn [WatchStatus_step]. rewrite H.
  unfold set_CurrentStatus, emit. cbn [trace network dials CurrentStatus].
  f_equal. f_equal. rewrite <- !app_assoc. reflexivity.
Qed.

Lemma NewClient_world (w w' : World) r :
  NewClient w addr = (w', r) ->
  CurrentStatus w' = CurrentStatus w
  /\ (trace w' = trace w ++ [EvDial addr]
      \/ (trace w' = trace w ++ [EvDial addr; EvClose (dials w)]
          /\ exists e, r = Err e)).
Proof.
  unfold NewClient, Dial.
  destruct (network w (dials w)) as [cause|stream accepts broken].
  - intros E. injection E as <- <-. split; [reflexivity|]. now left.
  - cbn [reader conn]. destruct (ReadString stream) as [[line rest] [cause|]].
    + intros E. injection E as <- <-. split; [reflexivity|]. right.
      split; [|eauto]. unfold Close, emit. cbn [trace conn conn_id].
      now rewrite <- app_assoc.
    + destruct (negb (HasPrefix line "OK MPD")).
      * intros E. injection E as <- <-. split; [reflexivity|]. right.
        split; [|eauto]. unfold Close, emit. cbn [trace conn conn_id].
        now rewrite <- app_assoc.
      * intros E. injection E as <- <-. split; [reflexivity|]. now left.
Qed.

Lemma last_published_app (a b : list Event) (o : option Status) :
  last_published (a ++ b) o = last_published b (last_published a o).
Proof.
  revert o. induction a as [|e a IH]; intros o; [reflexivity|].
  destruct e; simpl; apply IH.
Qed.

Lemma last_published_logs (logged : list LogMsg) (o : option Status) :
  last_published (map EvLog logged) o = o.
Proof. induction logged as [|m l IH]; [reflexivity | exact IH]. Qed.

(** Every turn either leaves [CurrentStatus] as it is, publishing
    nothing, or is a poll whose status it stores and publishes. *)
Lemma step_CurrentStatus (st : Watcher * World) :
  (CurrentStatus (snd (step st)) = CurrentStatus (snd st)
   /\ exists evs, trace (snd (step st)) = trace (snd st) ++ evs
                  /\ forall o, last_published evs o = o)
  \/ (exists client client' logged status,
        fst st = Polling client
        /\ Client_Status ParseFloat client = (client', logged, Ok status)
        /\ fst (step st) = Polling client'
        /\ CurrentStatus (snd (step st)) = Some status
        /\ trace (snd (step st))
           = trace (snd st) ++ [EvTick] ++ map EvLog logged ++ [EvPublish status]).
Proof.
  destruct st as [[|client] w].
  - left. destruct (NewClient w addr) as [w' [c|e]] eqn:N;
      destruct (NewClient_world _ _ _ N) as [C T].
    + rewrite (step_connect_opens _ _ _ N). cbn [snd emit CurrentStatus trace].
      split; [exact C|]. destruct T as [->|[_ [? ?]]]; [|discriminate].
      eexists. rewrite <- app_assoc. split; [reflexivity|]. reflexivity.
    + rewrite (step_connect_fails _ _ _ N). cbn [snd emit CurrentStatus trace].
      split; [exact C|]. destruct T as [->|[-> _]];
        (eexists; rewrite <- app_assoc; split; [reflexivity|]; reflexivity).
  - destruct (Client_Status ParseFloat client) as [[client' logged] [status|err]] eqn:S.
    + right. exists client, client', logged, status.
      rewrite (step_poll_publishes _ _ _ _ _ S). now repeat split.
    + left. rewrite (step_poll_fails _ _ _ _ _ S). cbn [snd emit CurrentStatus trace].
      split; [reflexivity|]. eexists. split; [reflexivity|].
      intros o. cbn [app last_published].
      now rewrite last_published_app, last_published_logs.
Qed.

Lemma run_succ (n : nat) (st : Watcher * World) :
  run (S n) st = step (run n st).
Proof.
  revert st. induction n as [|n IH]; intros st; [reflexivity|].
  change (run (S (S n)) st) with (run (S n) (step st)).
  rewrite IH. reflexivity.
Qed.

Lemma run_add (n m : nat) (st : Watcher * World) :
  run (n + m) st = run m (run n st).
Proof.
  revert st. induction n as [|n IH]; intros st; [reflexivity|]. apply IH.
Qed.

Lemma step_keeps_Some (st : Watcher * World) :
  is_Some (CurrentStatus (snd st)) -> is_Some (CurrentStatus (snd (step st))).
Proof.
  intros H. destruct (step_CurrentStatus st) as [[-> _]|(? & ? & ? & ? & _ & _ & _ & -> & _)];
    [exact H | eauto].
Qed.

Lemma run_keeps_Some (m : nat) (st : Watcher * World) :
  is_Some (CurrentStatus (snd st)) -> is_Some (CurrentStatus (snd (run m st))).
Proof.
  induction m as [|m IH]; intros H; [exact H|].
  rewrite run_succ. apply step_keeps_Some, IH, H.
Qed.

Lemma run_last_published (net : nat -> DialResult) (n : nat) :
  CurrentStatus (snd (run n (boot net)))
  = last_published (trace (snd (run n (boot net)))) None.
Proof.
  induction n as [|n IH]; [reflexivity|].
  rewrite run_succ.
  destruct (step_CurrentStatus (run n (boot net)))
    as [(-> & evs & -> & P)|(? & ? & logged & status & _ & _ & _ & -> & ->)].
  - now rewrite last_published_app, P.
  - rewrite !last_published_app, last_published_logs. reflexivity.
Qed.

End WatchFacts.

(** C3. In every state the watcher reaches from the start of the
    process, [CurrentStatus] holds the status last published, and none
    before the first; once it holds a status it holds one in every later
    state; a failed poll logs, closes the connection, stops the ticker
    and goes back to connecting with [CurrentStatus] as it was; and a
    turn changes [CurrentStatus] only to the status its poll decoded. *)
Theorem CurrentStatus_never_cleared
    (ParseFloat : string -> float * option NumError) (addr : string)
    (interval : Z) (net : nat -> DialResult) (n : nat) :
  CurrentStatus (snd (WatchStatus_run ParseFloat addr interval n (boot net)))
  = last_published (trace (snd (WatchStatus_run ParseFloat addr interval n (boot net)))) None
  /\ (forall m,
        is_Some (CurrentStatus (snd (WatchStatus_run ParseFloat addr interval n (boot net)))) ->
        is_Some (CurrentStatus
                   (snd (WatchStatus_run ParseFloat addr interval (n + m) (boot net)))))
  /\ (forall client client' logged err,
        fst (WatchStatus_run ParseFloat addr interval n (boot net)) = Polling client ->
        Client_Status ParseFloat client = (client', logged, Err err) ->
        fst (WatchStatus_run ParseFloat addr interval (S n) (boot net)) = Connecting
        /\ CurrentStatus (snd (WatchStatus_run ParseFloat addr interval (S n) (boot net)))
           = CurrentStatus (snd (WatchStatus_run ParseFloat addr interval n (boot net)))
        /\ trace (snd (WatchStatus_run ParseFloat addr interval (S n) (boot net)))
           = trace (snd (WatchStatus_run ParseFloat addr interval n (boot net)))
             ++ [EvTick] ++ map EvLog logged
             ++ [EvLog (LogStatusFailed err); EvClose (conn_id (conn client));
                 EvTickerStop])
  /\ (CurrentStatus (snd (WatchStatus_run ParseFloat addr interval (S n) (boot net)))
      = CurrentStatus (snd (WatchStatus_run ParseFloat addr interval n (boot net)))
      \/ exists client client' logged status,
           fst (WatchStatus_run ParseFloat addr interval n (boot net)) = Polling client
           /\ Client_Status ParseFloat client = (client', logged, Ok status)
           /\ CurrentStatus (snd (WatchStatus_run ParseFloat addr interval (S n) (boot net)))
              = Some status).
Proof.
  split; [apply run_last_published|]. split; [|split].
  - intros m H. rewrite run_add. now apply run_keeps_Some.
  - intros client client' logged err P S. rewrite run_succ.
    destruct (WatchStatus_run ParseFloat addr interval n (boot net)) as [pc w].
    simpl in P. subst pc. rewrite (step_poll_fails _ _ _ _ _ _ _ _ S).
    repeat split.
  - rewrite run_succ.
    destruct (step_CurrentStatus ParseFloat addr interval
                (WatchStatus_run ParseFloat addr interval n (boot net)))
      as [[E _]|(client & client' & logged & status & P & S & _ & E & _)].
    + now left.
    + right. now exists client, client', logged, status.
Qed.

(** The slot keeps the status of the second poll through the failure of
    the third and through the refused dials after it. *)
Example third_poll_fails :
  forall ParseFloat,
  let at_turn n := WatchStatus_run ParseFloat "127.0.0.1:6600" 1000 n (boot two_polls) in
  CurrentStatus (snd (at_turn 1%nat)) = None
  /\ CurrentStatus (snd (at_turn 3%nat))
     = Some (set_State "stop" (set_Volume 20 Status_defaults))
  /\ fst (at_turn 4%nat) = Connecting
  /\ CurrentStatus (snd (at_turn 4%nat))
     = Some (set_State "stop" (set_Volume 20 Status_defaults))
  /\ fst (at_turn 6%nat) = Connecting
  /\ CurrentStatus (snd (at_turn 6%nat))
     = Some (set_State "stop" (set_Volume 20 Status_defaults)).
Proof. intros ParseFloat. vm_compute. repeat split. Qed.

(** *** The retry delay *)



Section Pacing.

Variable ParseFloat : string -> float * option NumError.
Variable addr : string.
Variable interval : Z.

Local Notation "'step'" := (WatchStatus_step ParseFloat addr interval).
Local Notation "'run'" := (WatchStatus_run ParseFloat addr interval).




End Pacing.





(** * Further properties of the package *)

(** ** [Itoa] and [Atoi] *)

Lemma digit_digit_char (d : Z) : 0 <= d <= 9 -> digit (digit_char d) = Some d.
Proof.
  intros H.
  assert (C : d = 0 \/ d = 1 \/ d = 2 \/ d = 3 \/ d = 4 \/ d = 5 \/ d = 6
              \/ d = 7 \/ d = 8 \/ d = 9) by lia.
  repeat (destruct C as [->|C]; [reflexivity|]). now subst.
Qed.

Lemma formatBits_loop_digits (fuel : nat) :
  forall u acc, 0 <= u -> all_digits acc = true ->
  all_digits (formatBits_loop fuel u acc) = true.
Proof.
  induction fuel as [|fuel IH]; intros u acc U A; [exact A|].
  cbn [formatBits_loop]. destruct (Z.ltb_spec u 10).
  - cbn [all_digits]. now rewrite digit_digit_char by lia.
  - apply IH; [apply Z.div_pos; lia|].
    cbn [all_digits]. rewrite digit_digit_char; [exact A|].
    pose proof (Z.mod_pos_bound u 10). lia.
Qed.

Lemma formatBits_loop_nonempty (fuel : nat) :
  forall u acc, acc <> EmptyString \/ fuel <> O ->
  formatBits_loop fuel u acc <> EmptyString.
Proof.
  induction fuel as [|fuel IH]; intros u acc H.
  - destruct H as [H|H]; [exact H | contradiction].
  - cbn [formatBits_loop]. destruct (u <? 10); [discriminate|].
    apply IH. now left.
Qed.

Lemma maxUint64_value : maxUint64 = 18446744073709551615.
Proof. reflexivity. Qed.

Lemma ParseUint_loop_digit (c : ascii) (s : string) (n d : Z) :
  digit c = Some d -> 0 <= n -> n * 10 + d <= maxUint64 -> 0 <= d ->
  ParseUint_loop (String c s) n = ParseUint_loop s (n * 10 + d).
Proof.
  intros D N M P. cbn [ParseUint_loop]. rewrite D.
  rewrite maxUint64_value in *.
  change (18446744073709551615 / 10 + 1) with 1844674407370955162.
  destruct (Z.geb_spec n 1844674407370955162); [lia|].
  destruct (Z.gtb_spec (n * 10 + d) 18446744073709551615); [lia | reflexivity].
Qed.

(** Reading back what the digit loop wrote leads the parser to [u]. *)
Lemma ParseUint_formatBits (fuel : nat) :
  forall u acc, 0 <= u < 10 ^ Z.of_nat fuel -> u <= maxUint64 ->
  ParseUint_loop (formatBits_loop fuel u acc) 0 = ParseUint_loop acc u.
Proof.
  induction fuel as [|fuel IH]; intros u acc U M.
  - change (10 ^ Z.of_nat 0) with 1 in U. now replace u with 0 by lia.
  - cbn [formatBits_loop]. destruct (Z.ltb_spec u 10) as [Lt|Ge].
    + rewrite (ParseUint_loop_digit _ _ 0 u) by (try apply digit_digit_char; lia).
      now replace (0 * 10 + u) with u by lia.
    + assert (D : 0 <= u / 10 < 10 ^ Z.of_nat fuel).
      { split; [apply Z.div_pos; lia|].
        apply Z.div_lt_upper_bound; [lia|].
        rewrite Nat2Z.inj_succ, Z.pow_succ_r in U by lia. lia. }
      pose proof (Z.div_mod u 10 ltac:(lia)) as E.
      pose proof (Z.mod_pos_bound u 10 ltac:(lia)) as B.
      rewrite IH by lia.
      rewrite (ParseUint_loop_digit _ _ (u / 10) (u mod 10))
        by (try apply digit_digit_char; lia).
      f_equal. lia.
Qed.

Lemma ParseUint_FormatUint (u : Z) :
  0 <= u <= maxUint64 -> ParseUint (FormatUint u) = (u, None).
Proof.
  intros U. unfold ParseUint, FormatUint.
  assert (N : formatBits_loop 20 u EmptyString <> EmptyString)
    by (apply formatBits_loop_nonempty; right; discriminate).
  destruct (formatBits_loop 20 u EmptyString) eqn:F; [contradiction|].
  rewrite <- F, ParseUint_formatBits; [reflexivity | | lia].
  rewrite maxUint64_value in U.
  change (10 ^ Z.of_nat 20) with 100000000000000000000. lia.
Qed.

Lemma FormatUint_head (u : Z) :
  0 <= u -> exists c rest d, FormatUint u = String c rest /\ digit c = Some d.
Proof.
  intros U. pose proof (formatBits_loop_digits 20 u EmptyString U eq_refl) as A.
  assert (N : formatBits_loop 20 u EmptyString <> EmptyString)
    by (apply formatBits_loop_nonempty; right; discriminate).
  fold (FormatUint u) in A, N.
  destruct (FormatUint u) as [|c rest]; [contradiction|].
  cbn [all_digits] in A. destruct (digit c) as [d|] eqn:D; [|discriminate].
  now exists c, rest, d.
Qed.

Lemma digit_not_sign (c : ascii) (d : Z) :
  digit c = Some d -> Ascii.eqb c "+" = false /\ Ascii.eqb c "-" = false.
Proof.
  intros D. split.
  - destruct (Ascii.eqb_spec c "+") as [->|]; [discriminate | reflexivity].
  - destruct (Ascii.eqb_spec c "-") as [->|]; [discriminate | reflexivity].
Qed.

Lemma Atoi_Itoa (n : Z) :
  minInt <= n <= maxInt -> Atoi (Itoa n) = (n, None).
Proof.
  assert (V : minInt = -9223372036854775808 /\ maxInt = 9223372036854775807)
    by (split; reflexivity).
  destruct V as [-> ->]. intros R. unfold Atoi, Itoa, ParseInt.
  change (2 ^ 63) with 9223372036854775808.
  destruct (Z.ltb_spec n 0) as [Neg|Pos].
  - change (Ascii.eqb "-" "-") with true. change (Ascii.eqb "-" "+") with false.
    cbv zeta. cbn [orb negb andb].
    rewrite ParseUint_FormatUint by (rewrite maxUint64_value; lia).
    destruct (Z.gtb_spec (- n) 9223372036854775808); [lia|].
    now rewrite Z.opp_involutive.
  - destruct (FormatUint_head n Pos) as (c & rest & d & F & D).
    pose proof (ParseUint_FormatUint n) as P. rewrite F in P |- *.
    destruct (digit_not_sign c d D) as [-> ->].
    cbv zeta. cbn [orb negb andb].
    rewrite P by (rewrite maxUint64_value; lia).
    destruct (Z.geb_spec n 9223372036854775808); [lia | reflexivity].
Qed.

Lemma all_digits_no_newline (s : string) : all_digits s = true -> no_newline s = true.
Proof.
  induction s as [|c s IH]; [reflexivity|]. cbn [all_digits no_newline].
  destruct (digit c) as [d|] eqn:D; [|discriminate]. intros A.
  rewrite (IH A), andb_true_r.
  destruct (Ascii.eqb_spec c (ascii_of_nat 10)) as [->|]; [discriminate | reflexivity].
Qed.

Lemma no_newline_app (a b : string) :
  no_newline (a +:+ b) = no_newline a && no_newline b.
Proof.
  induction a as [|c a IH]; [reflexivity|].
  simpl. now rewrite IH, andb_assoc.
Qed.

Lemma Itoa_no_newline (n : Z) : no_newline (Itoa n) = true.
Proof.
  unfold Itoa. destruct (Z.ltb_spec n 0).
  - cbn [no_newline]. change (negb (Ascii.eqb "-" (ascii_of_nat 10))) with true.
    apply all_digits_no_newline, formatBits_loop_digits; [lia | reflexivity].
  - apply all_digits_no_newline, formatBits_loop_digits; [lia | reflexivity].
Qed.

(** ** The transport controls *)

(** What a transport control makes of the reply to its command. *)
Lemma method_framed (c : Client) (cmd : string)
    (pre : list string) (last rest : string) :
  writable (conn c) <> 0%nat ->
  reader c = frame pre +:+ last +:+ lf +:+ rest ->
  forallb body_line pre = true ->
  closing_line last = true ->
  (let '(c', r) := sendCommand c cmd in (c', error_of r))
  = ({| conn := after_write (conn c) cmd; reader := rest |},
     if String.eqb (trimmed last) "OK" then None
     else Some (ErrAck cmd (trimmed last))).
Proof.
  intros W R B Cl. rewrite (sendCommand_framed c cmd pre last rest W R B Cl).
  unfold reply_result. now destruct (String.eqb (trimmed last) "OK").
Qed.

(** The command line of a call: the verb, and the argument if any. *)
Lemma invoke_command (m : Call) (c : Client) :
  exists cmd,
    invoke m c = (let '(c', r) := sendCommand c cmd in (c', error_of r))
    /\ no_newline cmd = true
    /\ match argument m with
       | None => cmd = verb m
       | Some n => cmd = verb m +:+ " " +:+ Itoa n
       end.
Proof.
  destruct m as [n|n|b|b|b|b| |]; cbn [invoke verb argument];
    unfold Play, PlayID, Pause, Random_, Repeat_, Single_, Next, Previous; cbv zeta.
  - destruct (Z.geb_spec n 0); destruct (Z.ltb_spec n 0); try lia.
    + exists ("play " +:+ Itoa n). split; [reflexivity|]. split; [|reflexivity].
      now rewrite no_newline_app, Itoa_no_newline.
    + exists "play". now repeat split.
  - destruct (Z.geb_spec n 0); destruct (Z.ltb_spec n 0); try lia.
    + exists ("playid " +:+ Itoa n). split; [reflexivity|]. split; [|reflexivity].
      now rewrite no_newline_app, Itoa_no_newline.
    + exists "playid". now repeat split.
  - eexists. split; [reflexivity|]. split; [|reflexivity].
    now rewrite no_newline_app, Itoa_no_newline.
  - eexists. split; [reflexivity|]. split; [|reflexivity].
    now rewrite no_newline_app, Itoa_no_newline.
  - eexists. split; [reflexivity|]. split; [|reflexivity].
    now rewrite no_newline_app, Itoa_no_newline.
  - eexists. split; [reflexivity|]. split; [|reflexivity].
    now rewrite no_newline_app, Itoa_no_newline.
  - exists "next". now repeat split.
  - exists "previous". now repeat split.
Qed.

Lemma argument_range (m : Call) (n : Z) :
  argument m = Some n ->
  match m with
  | CPlay k | CPlayID k => n = k /\ 0 <= k
  | _ => n = 0 \/ n = 1
  end.
Proof.
  destruct m as [k|k|[]|[]|[]|[]| |]; cbn [argument]; intros E;
    try (injection E as <-; lia); try discriminate.
  - destruct (Z.ltb_spec k 0); [discriminate|]. injection E as <-. lia.
  - destruct (Z.ltb_spec k 0); [discriminate|]. injection E as <-. lia.
Qed.

(** X4. Each of the eight transport controls writes one command line
    and reads one reply. The line is the verb alone, or the verb, a
    space and a decimal number that [Atoi] reads back as the argument:
    the position or id when it is not negative, 1 or 0 for a flag. It
    holds no line feed. When the reply closes with [OK] the call
    returns no error, when it closes with an [ACK] line the error of
    that line; either way the reader is left right behind the closing
    line, and the lines of the reply are dropped. *)
Theorem transport_round_trip (m : Call) (c : Client)
    (pre : list string) (last rest : string) :
  writable (conn c) <> 0%nat ->
  reader c = frame pre +:+ last +:+ lf +:+ rest ->
  forallb body_line pre = true ->
  closing_line last = true ->
  (forall n, argument m = Some n -> n <= maxInt) ->
  exists cmd,
    invoke m c
    = ({| conn := after_write (conn c) cmd; reader := rest |},
       if String.eqb (trimmed last) "OK" then None
       else Some (ErrAck cmd (trimmed last)))
    /\ no_newline cmd = true
    /\ match argument m with
       | None => cmd = verb m
       | Some n => exists d, cmd = verb m +:+ " " +:+ d /\ Atoi d = (n, None)
       end.
Proof.
  intros W R B Cl Rg.
  destruct (invoke_command m c) as (cmd & E & N & A).
  exists cmd. split; [|split; [exact N|]].
  - rewrite E. now apply method_framed with (pre := pre).
  - destruct (argument m) as [n|] eqn:Am; [|exact A].
    exists (Itoa n). split; [exact A|]. apply Atoi_Itoa.
    specialize (Rg n eq_refl). apply argument_range in Am.
    assert (L : 0 <= n) by (destruct m; lia).
    split; [|exact Rg]. transitivity 0; [|exact L]. discriminate.
Qed.

(** [play 3] answered by [OK], and [pause 1] answered by an error. *)
Lemma transport_round_trip_witness :
  (exists cmd,
     invoke (CPlay 3) (serving ("OK" +:+ lf))
     = ({| conn := after_write (conn (serving ("OK" +:+ lf))) cmd; reader := EmptyString |},
        if String.eqb (trimmed "OK") "OK" then None
        else Some (ErrAck cmd (trimmed "OK")))
     /\ no_newline cmd = true
     /\ match argument (CPlay 3) with
        | None => cmd = verb (CPlay 3)
        | Some n => exists d, cmd = verb (CPlay 3) +:+ " " +:+ d /\ Atoi d = (n, None)
        end)
  /\ invoke (CPlay 3) (serving ("OK" +:+ lf))
     = ({| conn := after_write (conn (serving EmptyString)) "play 3"; reader := EmptyString |},
        None)
  /\ invoke (CPause true) (serving ("ACK [2@0] {pause} no" +:+ lf))
     = ({| conn := after_write (conn (serving EmptyString)) "pause 1"; reader := EmptyString |},
        Some (ErrAck "pause 1" "ACK [2@0] {pause} no")).
Proof.
  split; [|split; vm_compute; reflexivity].
  apply (transport_round_trip (CPlay 3) (serving ("OK" +:+ lf)) [] "OK" EmptyString).
  - simpl. lia.
  - reflexivity.
  - reflexivity.
  - vm_compute. reflexivity.
  - intros n E. vm_compute in E. injection E as <-. vm_compute. discriminate.
Defined.

(** ** What a result of [sendCommand] tells about the stream *)

Lemma ReadString_inv (rd line rd' : string) (e : option io_error) :
  ReadString rd = (line, rd', e) ->
  match e with
  | None => exists l, line = l +:+ lf /\ rd = l +:+ lf +:+ rd' /\ no_newline l = true
  | Some err => err = EOF /\ rd' = EmptyString /\ line = rd /\ no_newline rd = true
  end.
Proof.
  revert line rd' e. induction rd as [|c rd IH]; intros line rd' e H.
  - injection H as <- <- <-. now repeat split.
  - cbn [ReadString] in H.
    destruct (Ascii.eqb_spec c (ascii_of_nat 10)) as [->|Ne].
    + injection H as <- <- <-. exists EmptyString. now repeat split.
    + destruct (ReadString rd) as [[l r] e'] eqn:R. injection H as <- <- <-.
      specialize (IH l r e' eq_refl).
      assert (Nb : negb (Ascii.eqb c (ascii_of_nat 10)) = true).
      { destruct (Ascii.eqb_spec c (ascii_of_nat 10)); [contradiction | reflexivity]. }
      destruct e' as [err|].
      * destruct IH as (-> & -> & -> & N). repeat split; try reflexivity.
        cbn [no_newline]. now rewrite Nb, N.
      * destruct IH as (l0 & -> & -> & N). exists (String c l0).
        repeat split; try reflexivity. cbn [no_newline]. now rewrite Nb, N.
Qed.

Lemma stream_of_cons (command l rd rd' : string) (response : list string)
    (r : result (list string)) :
  body_line l = true ->
  stream_of command rd rd' (response ++ [trimmed l]) r ->
  stream_of command (l +:+ lf +:+ rd) rd' response r.
Proof.
  intros Bl. unfold stream_of.
  destruct r as [lines|[| | | |k e|k line]]; try exact (fun H => H).
  - intros (pre & last & -> & B & N & O & ->). exists (l :: pre), last.
    cbn [frame forallb map]. rewrite Bl, B, <- app_assoc, !string_app_assoc.
    now repeat split.
  - intros (-> & pre & partial & -> & B & N).
    split; [reflexivity|]. exists (l :: pre), partial.
    cbn [frame forallb]. rewrite Bl, B, !string_app_assoc. now repeat split.
  - intros (-> & pre & last & -> & B & N & A & ->). split; [reflexivity|].
    exists (l :: pre), last.
    cbn [frame forallb]. rewrite Bl, B, !string_app_assoc. now repeat split.
Qed.

Lemma sendCommand_loop_inv (fuel : nat) :
  forall command rd response rd' r,
  sendCommand_loop fuel command rd response = Some (rd', r) ->
  stream_of command rd rd' response r.
Proof.
  induction fuel as [|fuel IH]; intros command rd response rd' r H; [discriminate|].
  cbn [sendCommand_loop] in H.
  destruct (ReadString rd) as [[line rd1] e] eqn:R.
  apply ReadString_inv in R. destruct e as [err|].
  - destruct R as (_ & _ & _ & N). injection H as <- <-.
    cbn [stream_of]. split; [reflexivity|]. exists [], rd. now repeat split.
  - destruct R as (l & -> & -> & N). fold (trimmed l) in H.
    destruct (String.eqb_spec (trimmed l) "OK") as [O|NO].
    + injection H as <- <-. exists [], l. cbn [frame map]. rewrite app_nil_r.
      now repeat split.
    + destruct (HasPrefix (trimmed l) "ACK") eqn:A.
      * injection H as <- <-. split; [reflexivity|]. exists [], l. now repeat split.
      * apply stream_of_cons; [|now apply IH].
        unfold body_line. rewrite N, A.
        now destruct (String.eqb_spec (trimmed l) "OK").
Qed.

(** X5. Whatever [sendCommand] answers, the bytes it was given to read
    were of the matching shape.  Response lines come only from a reply
    of body lines closed by a line that trims to [OK], and are those
    lines trimmed; an [ACK] error comes only from body lines closed by
    a line that trims to something starting with [ACK], and carries it;
    a read error comes only when the bytes read are body lines followed
    by bytes without a line feed, no closing line among them; a send
    error comes only from a failed write, with nothing read.  In the
    first two cases the reader is left right behind the closing line. *)
Theorem sendCommand_result_inv (c : Client) (command : string) :
  match sendCommand c command with
  | (c', Err (ErrSend k e)) =>
      k = command /\ e = write_error (conn c) /\ writable (conn c) = 0%nat /\ c' = c
  | (c', r) =>
      writable (conn c) <> 0%nat
      /\ conn c' = after_write (conn c) command
      /\ stream_of command (reader c) (reader c') [] r
  end.
Proof.
  unfold sendCommand, Fprintln.
  destruct (writable (conn c)) as [|n] eqn:W.
  - repeat split. now destruct c.
  - destruct (sendCommand_loop_fuel (S (String.length (reader c))) command (reader c) [])
      as [[rd r] L]; [lia|].
    rewrite L. pose proof (sendCommand_loop_inv _ _ _ _ _ _ L) as St.
    assert (G : (S n <> 0)%nat /\
                {| conn_id := conn_id (conn c); sent := sent (conn c) ++ [command +:+ lf];
                   writable := n; write_error := write_error (conn c) |}
                = after_write (conn c) command
                /\ stream_of command (reader c) rd [] r).
    { split; [discriminate|]. split; [|exact St]. unfold after_write. now rewrite W. }
    destruct r as [lines|[| | | |k e|k line]]; try exact G.
    destruct St.
Qed.

Lemma ReadString_eof (s : string) :
  no_newline s = true -> ReadString s = (s, EmptyString, Some EOF).
Proof.
  induction s as [|c s IH]; intros N; [reflexivity|].
  cbn [no_newline] in N. apply andb_prop in N as [N1 N2].
  cbn [ReadString]. destruct (Ascii.eqb c (ascii_of_nat 10)); [discriminate|].
  now rewrite (IH N2).
Qed.

(** X15. A reply that stops short - body lines and then the end of the
    stream, before any closing line - makes [sendCommand] fail with the
    read error [io.EOF]: the lines read so far are not handed back, and
    nothing is left to read. *)
Theorem sendCommand_truncated (c : Client) (command : string)
    (pre : list string) (partial : string) :
  writable (conn c) <> 0%nat ->
  reader c = frame pre +:+ partial ->
  forallb body_line pre = true ->
  no_newline partial = true ->
  sendCommand c command
  = ({| conn := after_write (conn c) command; reader := EmptyString |},
     Err (ErrRead command EOF)).
Proof.
  intros W R B N. unfold sendCommand, Fprintln, after_write.
  destruct (writable (conn c)) as [|n] eqn:Wn; [contradiction|].
  assert (L : sendCommand_loop (length pre + 1) command (reader c) []
              = Some (EmptyString, Err (ErrRead command EOF))).
  { rewrite R, sendCommand_loop_body by exact B.
    cbn [sendCommand_loop]. now rewrite (ReadString_eof _ N). }
  rewrite (sendCommand_loop_mono _ (S (String.length (reader c))) _ _ _ _ L).
  - reflexivity.
  - rewrite R. pose proof (frame_length pre partial). lia.
Qed.

(** A status reply cut after its second line, in the middle of the
    third. *)
Lemma sendCommand_truncated_witness :
  sendCommand (serving ("volume: 50" +:+ lf +:+ "state: play" +:+ lf +:+ "song")) "status"
  = ({| conn := after_write
                  (conn (serving ("volume: 50" +:+ lf +:+ "state: play" +:+ lf +:+ "song")))
                  "status";
        reader := EmptyString |},
     Err (ErrRead "status" EOF)).
Proof.
  apply (sendCommand_truncated
           (serving ("volume: 50" +:+ lf +:+ "state: play" +:+ lf +:+ "song"))
           "status" ["volume: 50"; "state: play"] "song").
  - simpl. lia.
  - reflexivity.
  - vm_compute. reflexivity.
  - reflexivity.
Defined.

(** ** More on [parseKVP] *)

Lemma cut_at_first_key (l k v : string) :
  cut_at_first ": " l k v -> forall a b, k <> a +:+ ": " +:+ b.
Proof.
  intros [E M] a b K.
  assert (L : l = a +:+ ": " +:+ (b +:+ ": " +:+ v)).
  { rewrite E, K. now rewrite !string_app_assoc. }
  apply M in L. rewrite K, !string_app_length in L. simpl in L. lia.
Qed.

Lemma parseKVP_size (lines : list string) :
  (size (parseKVP lines) <= length lines)%nat.
Proof.
  induction lines as [|x lines IH] using rev_ind; [reflexivity|].
  rewrite parseKVP_snoc, length_app. cbn [length].
  destruct (parseKVP_step_cases (parseKVP lines) x) as [(k & v & _ & ->)|[_ ->]]; [|lia].
  destruct (parseKVP lines !! k) as [y|] eqn:Lk.
  - rewrite map_size_insert_Some by eauto. lia.
  - rewrite map_size_insert_None by exact Lk. lia.
Qed.

(** X6. Every entry of the mapping [parseKVP] builds comes from a line
    of the reply that reads key, separator, value; a key never holds
    the separator (a value may); and the mapping has no more entries
    than the reply has lines. *)
Theorem parseKVP_entries (lines : list string) :
  (forall k v, parseKVP lines !! k = Some v ->
     k +:+ ": " +:+ v ∈ lines /\ forall a b, k <> a +:+ ": " +:+ b)
  /\ (size (parseKVP lines) <= length lines)%nat.
Proof.
  split; [|apply parseKVP_size].
  intros k v H. apply parseKVP_lookup_Some in H as (i & l & L & C & _).
  split.
  - destruct C as [<- _]. apply list_elem_of_lookup. now exists i.
  - now apply (cut_at_first_key l k v).
Qed.

(** ** The integers of a decoded status *)

Lemma ParseUint_loop_bounds (s : string) :
  forall n, 0 <= n <= maxUint64 -> 0 <= fst (ParseUint_loop s n) <= maxUint64.
Proof.
  induction s as [|c s IH]; intros n N; [exact N|].
  cbn [ParseUint_loop]. rewrite maxUint64_value in *.
  destruct (digit c) as [d|] eqn:D; [|simpl; lia].
  destruct (n >=? 18446744073709551615 / 10 + 1); [simpl; lia|].
  destruct (Z.gtb_spec (n * 10 + d) 18446744073709551615); [simpl; lia|].
  apply IH. split; [|lia].
  unfold digit in D.
  destruct (_ && _) eqn:B in D; [|discriminate]. injection D as <-.
  apply andb_prop in B as [B _]. apply Z.leb_le in B. lia.
Qed.

Lemma Atoi_is_int (s : string) : is_int (fst (Atoi s)).
Proof.
  assert (V : minInt = -9223372036854775808 /\ maxInt = 9223372036854775807)
    by (split; reflexivity).
  unfold is_int. destruct V as [-> ->].
  unfold Atoi, ParseInt. destruct s as [|c0 s]; [simpl; lia|].
  cbv zeta. change (2 ^ 63) with 9223372036854775808.
  match goal with |- context [ParseUint ?x] => set (s1 := x) end.
  assert (B : 0 <= fst (ParseUint s1) <= maxUint64).
  { unfold ParseUint. destruct s1; [rewrite maxUint64_value; simpl; lia|].
    apply ParseUint_loop_bounds. rewrite maxUint64_value. lia. }
  destruct (ParseUint s1) as [un [[]|]]; cbn [fst] in *; [simpl; lia| |].
  - destruct (Ascii.eqb c0 "-"); cbn [negb andb].
    + destruct (Z.gtb_spec un 9223372036854775808); simpl; lia.
    + destruct (Z.geb_spec un 9223372036854775808); simpl; lia.
  - destruct (Ascii.eqb c0 "-"); cbn [negb andb].
    + destruct (Z.gtb_spec un 9223372036854775808); simpl; lia.
    + destruct (Z.geb_spec un 9223372036854775808); simpl; lia.
Qed.

Lemma int_of_float64_is_int (f : float) : is_int (int_of_float64 f).
Proof.
  assert (V : minInt = -9223372036854775808 /\ maxInt = 9223372036854775807)
    by (split; reflexivity).
  unfold is_int, int_of_float64.
  destruct (Prim2SF f) as [b|b| |sgn m e]; try (destruct V as [-> ->]; lia).
  cbv zeta.
  destruct (_ && _) eqn:B.
  - apply andb_prop in B as [B1 B2]. apply Z.leb_le in B1, B2. lia.
  - destruct V as [-> ->]. lia.
Qed.

(** A range error of [Atoi] comes with the bound of [int] on the side
    of the sign of the text. *)
Lemma Atoi_range_sign (v : string) :
  snd (Atoi v) = Some ErrRange ->
  fst (Atoi v) = if HasPrefix v "-" then minInt else maxInt.
Proof.
  unfold Atoi, ParseInt. destruct v as [|c0 s]; [discriminate|].
  cbv zeta. cbn [HasPrefix].
  match goal with |- context [ParseUint ?x] => set (s1 := x) end.
  destruct (ParseUint s1) as [un [[]|]]; [discriminate| |];
    destruct (Ascii.eqb c0 "-"); cbn [negb andb];
    repeat (match goal with |- context [if ?b then _ else _] => destruct b end);
    cbn [fst snd]; intros E; solve [discriminate E | reflexivity].
Qed.

(** X7. What each integer field of a decoded status holds, whatever the
    reply: for a key that is absent the default of the field; for a
    text [Atoi] accepts its value; for a text [Atoi] rejects as no
    number 0; for a number out of range the bound of [int] on the side
    of its sign.  The duration is the [int] of the parsed float, 0 for
    an absent key.  Each of them is a value of [int]. *)
Theorem decodeStatus_int_fields
    (ParseFloat : string -> float * option NumError) (kv : gmap string string) :
  (forall f : IntField,
     int_field f (decodeStatus ParseFloat kv)
     = match kv !! int_key f with
       | None => int_field f Status_defaults
       | Some v =>
           match snd (Atoi v) with
           | None => fst (Atoi v)
           | Some ErrSyntax => 0
           | Some ErrRange => if HasPrefix v "-" then minInt else maxInt
           end
       end)
  /\ Duration (decodeStatus ParseFloat kv)
     = match kv !! "duration" with
       | None => 0
       | Some v => int_of_float64 (fst (ParseFloat v))
       end
  /\ (forall f : IntField, is_int (int_field f (decodeStatus ParseFloat kv)))
  /\ is_int (Duration (decodeStatus ParseFloat kv)).
Proof.
  assert (D : is_int 0 /\ is_int (-1)).
  { unfold is_int. split; split; discriminate. }
  destruct D as [D0 D1]. rewrite decodeStatus_fields.
  split; [|split; [|split]].
  - intros f.
    assert (G : forall d, from_option (fun v => fst (Atoi v)) d (kv !! int_key f)
                          = match kv !! int_key f with
                            | None => d
                            | Some v =>
                                match snd (Atoi v) with
                                | None => fst (Atoi v)
                                | Some ErrSyntax => 0
                                | Some ErrRange =>
                                    if HasPrefix v "-" then minInt else maxInt
                                end
                            end).
    { intros d. destruct (kv !! int_key f) as [v|]; [|reflexivity].
      cbn [from_option]. destruct (snd (Atoi v)) as [[]|] eqn:E.
      - now apply Atoi_syntax.
      - now apply Atoi_range_sign.
      - reflexivity. }
    destruct f; cbn [int_field Volume PlaylistLength Song SongID NextSong
                     NextSongID Bitrate Status_defaults]; apply G.
  - cbn [Duration]. now destruct (kv !! "duration").
  - intros f.
    destruct f; cbn [int_field Volume PlaylistLength Song SongID NextSong
                     NextSongID Bitrate];
      match goal with
      | |- is_int (from_option _ _ ?o) =>
          destruct o; cbn [from_option]; first [apply Atoi_is_int | assumption]
      end.
  - cbn [Duration]. destruct (kv !! "duration"); cbn [from_option];
      [apply int_of_float64_is_int | assumption].
Qed.

(** X8. An integer field decodes the decimal text of every [int] to
    that [int]: what [Itoa] writes for the key, [decodeStatus] reads
    back. *)
Theorem decodeStatus_reads_Itoa
    (ParseFloat : string -> float * option NumError) (kv : gmap string string)
    (n : Z) :
  minInt <= n <= maxInt ->
  Volume (decodeStatus ParseFloat (<["volume" := Itoa n]> kv)) = n
  /\ PlaylistLength (decodeStatus ParseFloat (<["playlistlength" := Itoa n]> kv)) = n
  /\ Song (decodeStatus ParseFloat (<["song" := Itoa n]> kv)) = n
  /\ SongID (decodeStatus ParseFloat (<["songid" := Itoa n]> kv)) = n
  /\ NextSong (decodeStatus ParseFloat (<["nextsong" := Itoa n]> kv)) = n
  /\ NextSongID (decodeStatus ParseFloat (<["nextsongid" := Itoa n]> kv)) = n
  /\ Bitrate (decodeStatus ParseFloat (<["bitrate" := Itoa n]> kv)) = n.
Proof.
  intros R. rewrite !decodeStatus_fields.
  cbn [Volume PlaylistLength Song SongID NextSong NextSongID Bitrate].
  rewrite !lookup_insert_eq. cbn [from_option].
  rewrite (Atoi_Itoa n R). now repeat split.
Qed.

(** The song id -1 and the largest position. *)
Lemma decodeStatus_reads_Itoa_witness :
  (minInt <= -1 <= maxInt)
  /\ Itoa (-1) = "-1"
  /\ forall ParseFloat,
     SongID (decodeStatus ParseFloat (<["songid" := Itoa (-1)]> (<["state" := "stop"]> ∅)))
     = -1.
Proof.
  assert (R : minInt <= -1 <= maxInt) by (split; discriminate).
  split; [exact R|]. split; [reflexivity|]. intros ParseFloat.
  exact (proj1 (proj2 (proj2 (proj2
           (decodeStatus_reads_Itoa ParseFloat (<["state" := "stop"]> ∅) (-1) R))))).
Defined.

(** ** The connections of the watcher *)

Lemma closes_app (a b : list Event) : closes (a ++ b) = closes a ++ closes b.
Proof.
  induction a as [|e a IH]; [reflexivity|].
  destruct e; cbn [app closes]; rewrite IH; reflexivity.
Qed.

Lemma closes_logs (logged : list LogMsg) : closes (map EvLog logged) = [].
Proof. induction logged as [|m l IH]; [reflexivity | exact IH]. Qed.

Lemma NewClient_result (w w' : World) (addr : string) (r : result Client) :
  NewClient w addr = (w', r) ->
  network w' = network w /\ dials w' = S (dials w)
  /\ match r with
     | Ok c =>
         conn_id (conn c) = dials w /\ closes (trace w') = closes (trace w)
         /\ opens (network w) (dials w)
     | Err _ =>
         (closes (trace w') = closes (trace w) /\ ~ opens (network w) (dials w))
         \/ (closes (trace w') = closes (trace w) ++ [dials w]
             /\ opens (network w) (dials w))
     end.
Proof.
  unfold NewClient, Dial, opens.
  destruct (network w (dials w)) as [cause|stream accepts broken] eqn:N.
  - intros E. injection E as <- <-. cbn [network dials trace].
    repeat split. left. rewrite closes_app, app_nil_r.
    split; [reflexivity|]. intros (? & ? & ? & ?). discriminate.
  - cbn [reader conn]. destruct (ReadString stream) as [[line rest] [cause|]].
    + intros E. injection E as <- <-. unfold Close, emit. cbn [network dials trace conn conn_id].
      repeat split. right. rewrite !closes_app. cbn [closes]. rewrite app_nil_r. eauto 6.
    + destruct (negb (HasPrefix line "OK MPD")).
      * intros E. injection E as <- <-. unfold Close, emit.
        cbn [network dials trace conn conn_id].
        repeat split. right. rewrite !closes_app. cbn [closes]. rewrite app_nil_r. eauto 6.
      * intros E. injection E as <- <-. cbn [network dials trace conn conn_id].
        repeat split; [|eauto]. now rewrite closes_app, app_nil_r.
Qed.

Lemma step_tidy (ParseFloat : string -> float * option NumError) (addr : string)
    (interval : Z) (net : nat -> DialResult) (st : Watcher * World) :
  tidy net st -> tidy net (WatchStatus_step ParseFloat addr interval st).
Proof.
  destruct st as [[|client] w]; unfold tidy; cbn [fst snd];
    intros (Hn & Hopen & Hclosed & Hnd & Hpoll).
  - destruct (NewClient w addr) as [w' [c|e]] eqn:N;
      destruct (NewClient_result _ _ _ _ N) as (N1 & N2 & N3); rewrite Hn in N3.
    + rewrite (step_connect_opens _ _ _ _ _ _ N). cbn [fst snd emit network dials trace polled].
      destruct N3 as (Id & Cl & Op). rewrite closes_app, app_nil_r, Cl, N1, N2, Id.
      split; [exact Hn|]. split; [|split; [|split; [exact Hnd|]]].
      * intros k Lt O. destruct (decide (k = dials w)) as [->|Ne]; [now right|].
        left. destruct (Hopen k ltac:(lia) O) as [I|[]]. exact I.
      * intros k I. destruct (Hclosed k I) as (Lt & O & _). repeat split; [lia | exact O | lia].
      * intros k <-. split; [lia | exact Op].
    + rewrite (step_connect_fails _ _ _ _ _ _ N). cbn [fst snd emit network dials trace polled].
      rewrite closes_app, app_nil_r, N1, N2.
      split; [exact Hn|].
      destruct N3 as [[Cl No]|[Cl Op]]; rewrite Cl.
      * split; [|split; [|split; [exact Hnd|now intros k []]]].
        { intros k Lt O. destruct (decide (k = dials w)) as [->|Ne]; [now destruct No|].
          exact (Hopen k ltac:(lia) O). }
        intros k I. destruct (Hclosed k I) as (Lt & O & _). repeat split; [lia | exact O | tauto].
      * split; [|split; [|split; [|now intros k []]]].
        { intros k Lt O. left. apply in_or_app.
          destruct (decide (k = dials w)) as [->|Ne]; [right; now left|].
          left. destruct (Hopen k ltac:(lia) O) as [I|[]]. exact I. }
        { intros k I. apply in_app_or in I as [I|[<-|[]]].
          - destruct (Hclosed k I) as (Lt & O & _). repeat split; [lia | exact O | tauto].
          - repeat split; [lia | exact Op | tauto]. }
        apply NoDup_app. split; [exact Hnd|]. split; [|apply NoDup_singleton].
        intros k I J. apply list_elem_of_In in I. apply list_elem_of_singleton in J as ->.
        destruct (Hclosed _ I) as (Lt & _). lia.
  - cbn [polled] in *.
    destruct (Client_Status ParseFloat client) as [[client' logged] [status|err]] eqn:S.
    + rewrite (step_poll_publishes _ _ _ _ _ _ _ _ S).
      cbn [fst snd emit set_CurrentStatus network dials trace polled].
      rewrite !closes_app, closes_logs. cbn [closes app]. rewrite app_nil_r.
      rewrite (Client_Status_conn_id _ _ _ _ _ S). tauto.
    + rewrite (step_poll_fails _ _ _ _ _ _ _ _ S).
      cbn [fst snd emit network dials trace polled].
      rewrite !closes_app, closes_logs. cbn [closes app].
      destruct (Hpoll _ eq_refl) as [Lt Op].
      split; [exact Hn|]. split; [|split; [|split; [|now intros k []]]].
      * intros k Lk O. left. apply in_or_app.
        destruct (Hopen k Lk O) as [I|<-]; [now left | right; now left].
      * intros k I. apply in_app_or in I as [I|[<-|[]]].
        { destruct (Hclosed k I) as (L & O & _). tauto. }
        tauto.
      * apply NoDup_app. split; [exact Hnd|]. split; [|apply NoDup_singleton].
        intros k I J. apply list_elem_of_In in I. apply list_elem_of_singleton in J as ->.
        destruct (Hclosed _ I) as (_ & _ & Np). now apply Np.
Qed.

(** X9. The watcher keeps its connections tidy. In every state it
    reaches from the start of the process, each connection a dial has
    opened is closed, except the one it polls on, which is not; so at
    most one connection is open at any time, and none is left open when
    it connects again.  Only connections it opened are closed, and none
    of them twice. *)
Theorem WatchStatus_connections
    (ParseFloat : string -> float * option NumError) (addr : string)
    (interval : Z) (net : nat -> DialResult) (n : nat) :
  (forall k,
     (k < dials (snd (WatchStatus_run ParseFloat addr interval n (boot net))))%nat ->
     opens net k ->
     In k (closes (trace (snd (WatchStatus_run ParseFloat addr interval n (boot net)))))
     \/ polled (fst (WatchStatus_run ParseFloat addr interval n (boot net))) k)
  /\ (forall k,
        In k (closes (trace (snd (WatchStatus_run ParseFloat addr interval n (boot net))))) ->
        (k < dials (snd (WatchStatus_run ParseFloat addr interval n (boot net))))%nat
        /\ opens net k
        /\ ~ polled (fst (WatchStatus_run ParseFloat addr interval n (boot net))) k)
  /\ NoDup (closes (trace (snd (WatchStatus_run ParseFloat addr interval n (boot net))))).
Proof.
  assert (T : tidy net (WatchStatus_run ParseFloat addr interval n (boot net))).
  { induction n as [|n IH].
    - unfold tidy, boot. cbn. repeat split; try (intros; lia); try now intros.
      constructor.
    - rewrite run_succ. now apply step_tidy. }
  destruct T as (_ & A & B & C & _). exact (conj A (conj B C)).
Qed.

(** X10. A poll sends the watcher back to connecting exactly when its
    [status] query fails; when the query succeeds the poll ends by
    publishing a status and the watcher stays on the connection, also
    when the [currentsong] query that may follow fails. *)
Theorem poll_reconnects_iff_status_fails
    (ParseFloat : string -> float * option NumError) (addr : string)
    (interval : Z) (client : Client) (w : World) :
  (fst (WatchStatus_step ParseFloat addr interval (Polling client, w)) = Connecting
   <-> exists e, snd (sendCommand client "status") = Err e)
  /\ ((exists lines, snd (sendCommand client "status") = Ok lines)
      <-> exists status,
            last (trace (snd (WatchStatus_step ParseFloat addr interval (Polling client, w))))
            = Some (EvPublish status)
            /\ CurrentStatus (snd (WatchStatus_step ParseFloat addr interval (Polling client, w)))
               = Some status
            /\ exists client',
                 fst (WatchStatus_step ParseFloat addr interval (Polling client, w))
                 = Polling client').
Proof.
  destruct (Client_Status ParseFloat client) as [[client' logged] [status|err]] eqn:S.
  - rewrite (step_poll_publishes _ _ _ _ _ _ _ _ S).
    cbn [fst snd set_CurrentStatus emit trace CurrentStatus].
    assert (O : exists lines, snd (sendCommand client "status") = Ok lines).
    { unfold Client_Status in S.
      destruct (sendCommand client "status") as [c1 [lines|e]]; [eauto | discriminate]. }
    split; split; try discriminate.
    + intros [e E]. destruct O as [lines O]. congruence.
    + intros _. exists status. split; [|eauto].
      now rewrite !app_assoc, last_snoc.
    + intros _. exact O.
  - rewrite (step_poll_fails _ _ _ _ _ _ _ _ S). cbn [fst snd emit trace CurrentStatus].
    assert (E : exists e, snd (sendCommand client "status") = Err e).
    { unfold Client_Status in S.
      destruct (sendCommand client "status") as [c1 [lines|e]]; [|eauto].
      destruct (_ || _); [destruct (sendCommand c1 "currentsong") as [c2 [ls|e]]|];
        discriminate. }
    split; split; try reflexivity.
    + intros _. exact E.
    + intros [lines O]. destruct E as [e E]. congruence.
    + intros (status & _ & _ & c' & P). discriminate.
Qed.

(** ** The button handler *)

Lemma NewClient_CurrentStatus (w w' : World) (addr : string) (r : result Client) :
  NewClient w addr = (w', r) -> CurrentStatus w' = CurrentStatus w.
Proof.
  unfold NewClient, Dial. destruct (network w (dials w)) as [cause|stream accepts broken].
  - intros E. now injection E as <- <-.
  - cbn [reader conn]. destruct (ReadString stream) as [[line rest] [cause|]].
    + intros E. now injection E as <- <-.
    + destruct (negb (HasPrefix line "OK MPD")); intros E; now injection E as <- <-.
Qed.


Section RemoteFacts.

Variable maskPlayPause maskNextTrack maskPreviousTrack : Z.

Local Notation "'handle'" :=
  (HandleSimpleRemote maskPlayPause maskNextTrack maskPreviousTrack).

Local Notation "'line_of'" :=
  (button_line maskPlayPause maskNextTrack maskPreviousTrack).

Lemma method_sent (c : Client) (cmd : string) :
  writable (conn c) <> 0%nat ->
  sent (conn (fst (let '(c', r) := sendCommand c cmd in (c', error_of r))))
  = sent (conn c) ++ [cmd +:+ lf]
  /\ conn_id (conn (fst (let '(c', r) := sendCommand c cmd in (c', error_of r))))
     = conn_id (conn c).
Proof.
  intros W. pose proof (sendCommand_sent c cmd) as S.
  pose proof (sendCommand_conn_id c cmd) as I.
  destruct (sendCommand c cmd) as [c' r]. cbn [fst] in *.
  split; [|exact I]. rewrite S. now destruct (writable (conn c)).
Qed.

Lemma handle_stored (r : Remote) (st : Z) (c : Client) (status : Status) :
  mpdClient r = Some c ->
  CurrentStatus (world r) = Some status ->
  exists c',
    handle r (ContextButtonStatus st)
    = ({| world := world r; mpdClient := Some c';
          remote_log := remote_log r ++ [LogReceived st] |}, Returns None)
    /\ c' = match line_of st status with
            | Some cmd => fst (sendCommand c cmd)
            | None => c
            end.
Proof.
  intros M C. unfold HandleSimpleRemote, getMpdClient, button_line. cbv zeta.
  cbn [mpdClient world remote_log]. rewrite M. cbn [mpdClient world remote_log].
  rewrite ?C.
  destruct (negb (Z.land st maskPlayPause =? 0)).
  - unfold Pause. cbv zeta.
    destruct (String.eqb (State status) "play");
      match goal with |- context [sendCommand c ?x] =>
        change x with "pause 1" || change x with "pause 0" end;
      destruct (sendCommand c _) as [c' res]; eexists; split; reflexivity.
  - destruct (negb (Z.land st maskNextTrack =? 0)).
    + unfold Next. destruct (sendCommand c "next") as [c' res].
      eexists; split; reflexivity.
    + destruct (negb (Z.land st maskPreviousTrack =? 0)).
      * unfold Previous. destruct (sendCommand c "previous") as [c' res].
        eexists; split; reflexivity.
      * eexists; split; reflexivity.
Qed.

(** X12. With a client stored and a status published, a button status
    makes the handler send one line on that client, or none: [pause 1]
    when the play/pause bit is set and the published state is [play],
    [pause 0] when it is set and the state is anything else, [next] or
    [previous] when only those bits are set, in that order of
    precedence.  It returns no error whatever the reply, dials nothing
    and leaves the published status alone. *)
Theorem HandleSimpleRemote_sends (r : Remote) (st : Z) (c : Client)
    (status : Status) :
  mpdClient r = Some c ->
  CurrentStatus (world r) = Some status ->
  writable (conn c) <> 0%nat ->
  exists c',
    handle r (ContextButtonStatus st)
    = ({| world := world r; mpdClient := Some c';
          remote_log := remote_log r ++ [LogReceived st] |}, Returns None)
    /\ conn_id (conn c') = conn_id (conn c)
    /\ sent (conn c')
       = sent (conn c) ++ match line_of st status with
                          | Some cmd => [cmd +:+ lf]
                          | None => []
                          end.
Proof.
  intros M C W. destruct (handle_stored r st c status M C) as (c' & E & ->).
  eexists. split; [exact E|].
  destruct (line_of st status) as [cmd|].
  - rewrite sendCommand_conn_id, sendCommand_sent.
    split; [reflexivity|]. now destruct (writable (conn c)).
  - now rewrite app_nil_r.
Qed.

(** How a button status ends, read off the stored client, the
    connection attempt, the play/pause bit and the published status. *)
Lemma handle_outcome (r : Remote) (st : Z) :
  snd (handle r (ContextButtonStatus st))
  = match mpdClient r, snd (NewClient (world r) "127.0.0.1:6600") with
    | None, Err _ => Panics
    | _, _ =>
        if negb (Z.land st maskPlayPause =? 0)
        then match CurrentStatus (world r) with
             | None => Panics
             | Some _ => Returns None
             end
        else Returns None
    end.
Proof.
  unfold HandleSimpleRemote, getMpdClient. cbv zeta. cbn [mpdClient world remote_log].
  destruct (mpdClient r) as [c|] eqn:M.
  - cbn [mpdClient world remote_log].
    destruct (snd (NewClient (world r) "127.0.0.1:6600"));
      destruct (negb (Z.land st maskPlayPause =? 0));
      destruct (CurrentStatus (world r)) as [status|];
      destruct (negb (Z.land st maskNextTrack =? 0));
      destruct (negb (Z.land st maskPreviousTrack =? 0));
      unfold Pause, Next, Previous; cbv zeta;
      repeat match goal with
             | |- context [sendCommand ?x ?y] => destruct (sendCommand x y)
             end;
      reflexivity.
  - destruct (NewClient (world r) "127.0.0.1:6600") as [w' [c|e]] eqn:N; [|reflexivity].
    cbn [mpdClient world remote_log snd].
    rewrite (NewClient_CurrentStatus _ _ _ _ N).
    destruct (negb (Z.land st maskPlayPause =? 0));
      destruct (CurrentStatus (world r)) as [status|];
      destruct (negb (Z.land st maskNextTrack =? 0));
      destruct (negb (Z.land st maskPreviousTrack =? 0));
      unfold Pause, Next, Previous; cbv zeta;
      repeat match goal with
             | |- context [sendCommand ?x ?y] => destruct (sendCommand x y)
             end;
      reflexivity.
Qed.

(** X13. The handler panics in two cases only, both on a button
    status: when no client is stored and the connection attempt fails,
    whatever the buttons, and when a client is there, the play/pause
    bit is set and no status has been published yet.  In every other
    case it returns, and the error it returns is nil. *)
Theorem HandleSimpleRemote_panics (r : Remote) (payload : Payload) :
  (snd (handle r payload) = Panics
   <-> exists st,
         payload = ContextButtonStatus st
         /\ ((mpdClient r = None
              /\ exists e, snd (NewClient (world r) "127.0.0.1:6600") = Err e)
             \/ ((mpdClient r <> None
                  \/ exists c, snd (NewClient (world r) "127.0.0.1:6600") = Ok c)
                 /\ Z.land st maskPlayPause <> 0
                 /\ CurrentStatus (world r) = None)))
  /\ (snd (handle r payload) <> Panics -> snd (handle r payload) = Returns None).
Proof.
  destruct payload as [st|]; [|cbn; split; [|reflexivity]; split; [discriminate|]];
    [|intros (st & E & _); discriminate].
  rewrite handle_outcome.
  destruct (Z.eqb_spec (Z.land st maskPlayPause) 0) as [Z0|Nz]; cbn [negb];
    destruct (mpdClient r) as [c|];
    destruct (snd (NewClient (world r) "127.0.0.1:6600")) as [c1|e1];
    destruct (CurrentStatus (world r)) as [status|];
    (split; [split|]); try discriminate; try reflexivity; try (now intros []);
    try (intros (st0 & E & H); injection E as <-;
         destruct H as [[H1 [e H2]]|(H1 & H2 & H3)]; congruence);
    intros _; exists st; (split; [reflexivity|]).
  all: first [ left; split; [reflexivity|]; eexists; reflexivity
             | right; split; [|split; [assumption | reflexivity]];
               first [left; discriminate | right; eexists; reflexivity] ].
Qed.

End RemoteFacts.

Lemma HandleSimpleRemote_sends_witness :
  mpdClient remote_playing = Some (serving ("OK" +:+ lf))
  /\ CurrentStatus (world remote_playing) = Some (set_State "play" Status_defaults)
  /\ exists c',
       HandleSimpleRemote 1 2 4 remote_playing (ContextButtonStatus 3)
       = ({| world := world remote_playing; mpdClient := Some c';
             remote_log := remote_log remote_playing ++ [LogReceived 3] |}, Returns None)
       /\ conn_id (conn c') = conn_id (conn (serving ("OK" +:+ lf)))
       /\ sent (conn c')
          = sent (conn (serving ("OK" +:+ lf)))
            ++ match button_line 1 2 4 3 (set_State "play" Status_defaults) with
               | Some cmd => [cmd +:+ lf]
               | None => []
               end.
Proof.
  split; [reflexivity|]. split; [reflexivity|].
  apply (HandleSimpleRemote_sends 1 2 4 remote_playing 3 (serving ("OK" +:+ lf))
           (set_State "play" Status_defaults)).
  - reflexivity.
  - reflexivity.
  - simpl. lia.
Defined.

(** ** The websocket commands *)

Lemma wrap_int32_succ (c : Z) :
  - 2 ^ 31 <= c < 2 ^ 31 ->
  wrap_int32 (c + 1) = if c =? 2 ^ 31 - 1 then - 2 ^ 31 else c + 1.
Proof.
  unfold wrap_int32.
  change (2 ^ 31) with 2147483648. change (2 ^ 32) with 4294967296.
  intros R. destruct (Z.eqb_spec c (2147483648 - 1)) as [->|Ne].
  - reflexivity.
  - rewrite Z.mod_small by lia. lia.
Qed.

(** X14. [SetPlayingTrack] tells the front end the number after [c]:
    with a connection it writes the one message
    [MPD_API_PLAY_TRACK,<n>] and closes, where [<n>] is decimal text
    that reads back as [c + 1] - except at the largest [int32], where
    [c + 1] wraps and the number sent is the smallest [int32].  When
    the dial fails nothing is written and the process ends. *)
Theorem SetPlayingTrack_message (Url : string) (c : Z) :
  - 2 ^ 31 <= c < 2 ^ 31 ->
  (exists d,
     WS.SetPlayingTrack Url None c
     = ([WS.WSDial Url; WS.WSWrite ("MPD_API_PLAY_TRACK," +:+ d); WS.WSClose],
        WS.Returned)
     /\ Atoi d = (if c =? 2 ^ 31 - 1 then - 2 ^ 31 else c + 1, None))
  /\ forall e,
       WS.SetPlayingTrack Url (Some e) c = ([WS.WSDial Url; WS.WSFatal e], WS.Exited).
Proof.
  intros R. split; [|reflexivity].
  exists (Itoa (wrap_int32 (c + 1))). split; [reflexivity|].
  rewrite wrap_int32_succ by exact R. apply Atoi_Itoa.
  assert (V : minInt = -9223372036854775808 /\ maxInt = 9223372036854775807)
    by (split; reflexivity).
  destruct V as [-> ->]. change (2 ^ 31) with 2147483648 in *.
  destruct (c =? 2147483648 - 1); lia.
Qed.

(** The first track, and the last [int32]. *)
Lemma SetPlayingTrack_message_witness :
  (- 2 ^ 31 <= 0 < 2 ^ 31)
  /\ WS.SetPlayingTrack "ws://127.0.0.1" None 0
     = ([WS.WSDial "ws://127.0.0.1"; WS.WSWrite "MPD_API_PLAY_TRACK,1"; WS.WSClose],
        WS.Returned)
  /\ WS.SetPlayingTrack "ws://127.0.0.1" None 2147483647
     = ([WS.WSDial "ws://127.0.0.1"; WS.WSWrite "MPD_API_PLAY_TRACK,-2147483648";
         WS.WSClose], WS.Returned)
  /\ exists d,
       WS.SetPlayingTrack "ws://127.0.0.1" None 0
       = ([WS.WSDial "ws://127.0.0.1"; WS.WSWrite ("MPD_API_PLAY_TRACK," +:+ d);
           WS.WSClose], WS.Returned)
       /\ Atoi d = (if 0 =? 2 ^ 31 - 1 then - 2 ^ 31 else 0 + 1, None).
Proof.
  assert (R : - 2 ^ 31 <= 0 < 2 ^ 31) by (split; [discriminate | reflexivity]).
  split; [exact R|]. split; [vm_compute; reflexivity|].
  split; [vm_compute; reflexivity|].
  exact (proj1 (SetPlayingTrack_message "ws://127.0.0.1" 0 R)).
Defined.
